(** * Freshservice documentation RAG demo: model and verified properties

    A shallow embedding of the four Python modules of the repository
    ([ingest.py], [rag.py], [app.py], [scraper.py]) and the properties of
    the specification that are stated about them.

    Conventions of the model.
    - A Python [str] is the list of its Unicode code points.
    - A Python/numpy float is an exact rational of [Q]: rounding is not
      modelled, order and arithmetic are those of the rationals.
    - A call that may raise returns a [result]; functions that read or
      write the process globals or the files under [data/] are state
      transformers on [process].
    - The pretrained sentence encoder with the cosine metric, the hosted
      chat model, and the web with its HTML parser are interfaces
      ([SentenceModel], [ChatModel], [Web]): the program is modelled for
      every implementation of them.
    - The nearest-neighbour search of scikit-learn is modelled by brute
      force: all distances, sorted, the first [k] kept. *)

From Stdlib Require Import QArith Lqa.
From stdpp Require Import strings gmap list sorting.

Local Open Scope nat_scope.

(** ** Python values *)

Abbreviation char := N (only parsing).
Abbreviation str := (list N) (only parsing).

(** [decode_utf8] reads the bytes of a source literal as code points, so
    that the literals of the Python files can be written down as they are. *)
Fixpoint decode_utf8 (bs : list N) : str :=
  match bs with
  | [] => []
  | b :: r =>
      if (b <? 128)%N then b :: decode_utf8 r
      else if (b <? 224)%N then
        match r with
        | c1 :: r1 => ((b - 192) * 64 + (c1 - 128))%N :: decode_utf8 r1
        | _ => []
        end
      else if (b <? 240)%N then
        match r with
        | c1 :: c2 :: r2 =>
            ((b - 224) * 4096 + (c1 - 128) * 64 + (c2 - 128))%N :: decode_utf8 r2
        | _ => []
        end
      else
        match r with
        | c1 :: c2 :: c3 :: r3 =>
            ((b - 240) * 262144 + (c1 - 128) * 4096 + (c2 - 128) * 64 + (c3 - 128))%N
              :: decode_utf8 r3
        | _ => []
        end
  end.

Definition lit (s : string) : str :=
  decode_utf8 (map Ascii.N_of_ascii (String.list_ascii_of_string s)).

(** Exceptions, by class. *)
Inductive exn :=
  | ValueError
  | IndexError
  | TypeError
  | AttributeError
  | FileNotFoundError
  | RuntimeError
  | NotFittedError
  | RequestException
  | APIError
  | ParseError
  | ZeroDivisionError.

Inductive result (A : Type) :=
  | Ok (a : A)
  | Raise (e : exn).
Arguments Ok {A} a.
Arguments Raise {A} e.

Definition rbind {A B} (r : result A) (f : A -> result B) : result B :=
  match r with
  | Ok a => f a
  | Raise e => Raise e
  end.

Fixpoint rmap {A B} (f : A -> result B) (l : list A) : result (list B) :=
  match l with
  | [] => Ok []
  | a :: l' => rbind (f a) (fun b => rbind (rmap f l') (fun bs => Ok (b :: bs)))
  end.

(** [x / y] on numbers: a zero divisor raises. *)
Definition truediv (x y : Q) : result Q :=
  if Qeq_bool y 0 then Raise ZeroDivisionError else Ok (x / y)%Q.

(** [range(start, stop, step)] for a step that is not negative: a zero
    step raises, a positive one counts up while below [stop]. *)
Definition range (start stop step : nat) : result (list nat) :=
  match step with
  | 0 => Raise ValueError
  | S _ => Ok (map (fun k => start + k * step) (seq 0 ((stop - start + step - 1) / step)))
  end.

(** [s[i:j]] for indexes that are not negative: both ends are clamped to
    the length. *)
Definition slice {A} (s : list A) (i j : nat) : list A := take (j - i) (drop i s).

(** [str.isspace] on one code point: the Unicode white space of CPython. *)
Definition isspace (c : char) : bool :=
  ((9 <=? c) && (c <=? 13) || (28 <=? c) && (c <=? 32) || (c =? 133) || (c =? 160)
   || (c =? 5760) || (8192 <=? c) && (c <=? 8202) || (c =? 8232) || (c =? 8233)
   || (c =? 8239) || (c =? 8287) || (c =? 12288))%N.

Fixpoint lstrip (s : str) : str :=
  match s with
  | [] => []
  | c :: r => if isspace c then lstrip r else s
  end.

Definition rstrip (s : str) : str := reverse (lstrip (reverse s)).

Definition strip (s : str) : str := rstrip (lstrip s).

(** [sep.join(parts)]. *)
Fixpoint join (sep : str) (parts : list str) : str :=
  match parts with
  | [] => []
  | [p] => p
  | p :: rest => p ++ sep ++ join sep rest
  end.

(** ** Data model *)

(** A crawled page, an entry of [data/docs.json].  The code reads the
    three keys with [doc.get(key, "")]: a missing key is the empty string. *)
Record doc := { doc_url : str; doc_title : str; doc_content : str }.

(** An entry of [data/metadata.json]. *)
Record meta := {
  doc_id : nat;
  chunk_id : nat;
  title : str;
  url : str;
  text_excerpt : str
}.

(** The sentence-transformers model [all-MiniLM-L6-v2] and the cosine
    metric of scikit-learn.  [encode] is the embedding of one text:
    [model.encode(texts)] is the matrix with the row [encode t] for each
    text [t], in order. *)
Class SentenceModel := {
  vec : Type;
  encode : str -> vec;
  cosine_distance : vec -> vec -> Q
}.

(** The files under [data/]; [None] is a file that does not exist. *)
Record files `{SentenceModel} := {
  docs_json : option (list doc);
  embeddings_npy : option (list vec);
  metadata_json : option (list meta)
}.

(** ** ingest.py *)

Module Ingest.

Definition CHUNK_SIZE : nat := 500.

Definition chunk_text (text : str) (max_length : nat) : result (list str) :=
  rbind (range 0 (length text) max_length) (fun starts =>
  Ok (map (fun i => slice text i (i + max_length)) starts)).

Section WithModel.
Context `{SentenceModel}.

(** The inner loop of [build_index]: the chunks of one document with
    their metadata, [cid] counting from [cid0]. *)
Fixpoint chunk_metas (idx : nat) (d : doc) (cid0 : nat) (chunks : list str)
  : list (str * meta) :=
  match chunks with
  | [] => []
  | chunk :: rest =>
      (chunk, {| doc_id := idx; chunk_id := cid0; title := doc_title d;
                 url := doc_url d; text_excerpt := slice chunk 0 400 |})
        :: chunk_metas idx d (S cid0) rest
  end.

(** The outer loop: [text_chunks] and [metas] grow together, so they are
    kept as one list of pairs. *)
Fixpoint collect (idx0 : nat) (docs : list doc) : result (list (str * meta)) :=
  match docs with
  | [] => Ok []
  | d :: rest =>
      match doc_content d with
      | [] => collect (S idx0) rest
      | content =>
          rbind (chunk_text content CHUNK_SIZE) (fun chunks =>
          rbind (collect (S idx0) rest) (fun later =>
          Ok (chunk_metas idx0 d 0 chunks ++ later)))
      end
  end.

Definition build_index (fs : files) : result (list vec * list meta) * files :=
  match docs_json fs with
  | None => (Raise FileNotFoundError, fs)
  | Some docs =>
      match collect 0 docs with
      | Raise e => (Raise e, fs)
      | Ok pairs =>
          let text_chunks := map fst pairs in
          let metas := map snd pairs in
          let embeddings := map encode text_chunks in
          let fs1 := {| docs_json := docs_json fs;
                        embeddings_npy := Some embeddings;
                        metadata_json := metadata_json fs |} in
          let fs2 := {| docs_json := docs_json fs1;
                        embeddings_npy := embeddings_npy fs1;
                        metadata_json := Some metas |} in
          (Ok (embeddings, metas), fs2)
      end
  end.

End WithModel.
End Ingest.


(** ** rag.py *)

Module Rag.

(** The decimal digits of a natural number. *)
Fixpoint uint_digits (u : Decimal.uint) : list N :=
  match u with
  | Decimal.Nil => []
  | Decimal.D0 r => 48%N :: uint_digits r
  | Decimal.D1 r => 49%N :: uint_digits r
  | Decimal.D2 r => 50%N :: uint_digits r
  | Decimal.D3 r => 51%N :: uint_digits r
  | Decimal.D4 r => 52%N :: uint_digits r
  | Decimal.D5 r => 53%N :: uint_digits r
  | Decimal.D6 r => 54%N :: uint_digits r
  | Decimal.D7 r => 55%N :: uint_digits r
  | Decimal.D8 r => 56%N :: uint_digits r
  | Decimal.D9 r => 57%N :: uint_digits r
  end.

Definition digits (n : N) : str := uint_digits (N.to_uint n).

(** [round(x)] to the nearest integer, ties to even, for [x = a / d >= 0]. *)
Definition round_half_even (a d : N) : N :=
  let m := (a / d)%N in
  let r := (a mod d)%N in
  match (2 * r ?= d)%N with
  | Lt => m
  | Gt => (m + 1)%N
  | Eq => if N.even m then m else (m + 1)%N
  end.

(** The format specification [:.4f]. *)
Definition format_4f (x : Q) : str :=
  let m := round_half_even (Z.abs_N (Qnum x) * 10000) (Npos (Qden x)) in
  let frac := digits (m mod 10000) in
  (if (Qnum x <? 0)%Z then lit "-" else [])
    ++ digits (m / 10000) ++ lit "." ++ replicate (4 - length frac) 48%N ++ frac.

(** The hosted chat model.  [openai_client] is [None] when the API key is
    missing (or the client could not be built); otherwise it takes the
    system message and the user prompt to the text of the first choice,
    or raises. *)
Class ChatModel := {
  openai_client : option (str -> str -> result str)
}.

Section WithModel.
Context `{SentenceModel} `{ChatModel}.

(** scikit-learn's [NearestNeighbors(n_neighbors=.., metric="cosine")];
    [fit_X] is the matrix it was fitted on, [None] before [fit]. *)
Record NearestNeighbors := {
  n_neighbors : nat;
  fit_X : option (list vec)
}.

(** Calls that the program makes, kept as a ghost trace (most recent
    last) so that "never invokes" can be stated. *)
Inductive call :=
  | CallAnswerQuery (question : str) (top_k : nat)
  | CallRetrieve (query : str) (top_k : nat)
  | CallChat (prompt : str).

(** The process: the files on disk, the three globals of [rag.py], and
    the ghost trace. *)
Record process := {
  disk : files;
  embeddings : option (list vec);
  metas : option (list meta);
  nn : option NearestNeighbors;
  calls : list call
}.

Definition set_disk (fs : files) (p : process) : process :=
  {| disk := fs; embeddings := embeddings p; metas := metas p; nn := nn p;
     calls := calls p |}.
Definition set_embeddings (e : option (list vec)) (p : process) : process :=
  {| disk := disk p; embeddings := e; metas := metas p; nn := nn p;
     calls := calls p |}.
Definition set_metas (m : option (list meta)) (p : process) : process :=
  {| disk := disk p; embeddings := embeddings p; metas := m; nn := nn p;
     calls := calls p |}.
Definition set_nn (n : option NearestNeighbors) (p : process) : process :=
  {| disk := disk p; embeddings := embeddings p; metas := metas p; nn := n;
     calls := calls p |}.
Definition add_call (c : call) (p : process) : process :=
  {| disk := disk p; embeddings := embeddings p; metas := metas p; nn := nn p;
     calls := calls p ++ [c] |}.

(** Computations on the process that may raise; what was written before
    an exception stays written. *)
Definition M (A : Type) : Type := process -> result A * process.

Definition ret {A} (a : A) : M A := fun p => (Ok a, p).
Definition raise {A} (e : exn) : M A := fun p => (Raise e, p).
Definition bind {A B} (c : M A) (f : A -> M B) : M B :=
  fun p => match c p with
           | (Ok a, p') => f a p'
           | (Raise e, p') => (Raise e, p')
           end.
Definition lift {A} (r : result A) : M A := fun p => (r, p).
Definition read {A} (f : process -> A) : M A := fun p => (Ok (f p), p).
Definition modify (f : process -> process) : M unit := fun p => (Ok tt, f p).
Definition try_except {A} (c : M A) (handler : exn -> M A) : M A :=
  fun p => match c p with
           | (Ok a, p') => (Ok a, p')
           | (Raise e, p') => handler e p'
           end.

#[export] Instance M_ret : MRet M := @ret.
#[export] Instance M_bind : MBind M := fun A B f c => bind c f.

Fixpoint for_each {A B} (f : A -> M B) (l : list A) : M (list B) :=
  match l with
  | [] => ret []
  | a :: l' => b ← f a; bs ← for_each f l'; ret (b :: bs)
  end.

(** [nn.fit(X)] on the object already stored in the global: an empty
    matrix is refused. *)
Definition fit (n : NearestNeighbors) (X : list vec) : result NearestNeighbors :=
  match X with
  | [] => Raise ValueError
  | _ :: _ => Ok {| n_neighbors := n_neighbors n; fit_X := Some X |}
  end.

Definition load_index : M NearestNeighbors :=
  e0 ← read embeddings;
  match e0 with
  | Some _ => ret tt
  | None =>
      f ← read (fun p => embeddings_npy (disk p));
      match f with
      | Some E => modify (set_embeddings (Some E))
      | None => raise FileNotFoundError
      end
  end ;;
  m0 ← read metas;
  match m0 with
  | Some _ => ret tt
  | None =>
      f ← read (fun p => metadata_json (disk p));
      match f with
      | Some ms => modify (set_metas (Some ms))
      | None => raise FileNotFoundError
      end
  end ;;
  let fresh := {| n_neighbors := 8; fit_X := None |} in
  modify (set_nn (Some fresh)) ;;
  e1 ← read embeddings;
  fitted ← lift (fit fresh (default [] e1));
  modify (set_nn (Some fitted)) ;;
  ret fitted.

(** Brute-force search: the rows in order of distance to the query.
    scikit-learn leaves the order of rows at the same distance to its
    partial sort; here they are kept in row order, and no statement below
    depends on that choice. *)
Fixpoint insert_by_distance (x : Q * nat) (l : list (Q * nat)) : list (Q * nat) :=
  match l with
  | [] => [x]
  | y :: r =>
      if Qle_bool (fst x) (fst y) then x :: l else y :: insert_by_distance x r
  end.

Definition sort_by_distance (l : list (Q * nat)) : list (Q * nat) :=
  foldr insert_by_distance [] l.

(** [nn.kneighbors(q, n_neighbors=k)]: the distances and row indexes of
    the [k] nearest rows, nearest first.  It raises before [fit], for
    [k <= 0] and for [k] above the number of fitted rows. *)
Definition kneighbors (n : NearestNeighbors) (q : vec) (k : nat)
  : result (list (Q * nat)) :=
  match fit_X n with
  | None => Raise NotFittedError
  | Some X =>
      if k =? 0 then Raise ValueError
      else if length X <? k then Raise ValueError
      else Ok (take k (sort_by_distance (imap (fun i row => (cosine_distance q row, i)) X)))
  end.

Record retrieval_result := {
  r_meta : meta;
  similarity : Q
}.

Definition retrieve (query : str) (top_k : nat) : M (list retrieval_result) :=
  modify (add_call (CallRetrieve query top_k)) ;;
  n0 ← read nn;
  n ← match n0 with
      | Some n => ret n
      | None => n ← load_index; modify (set_nn (Some n)) ;; ret n
      end;
  let q_emb := encode query in
  found ← lift (kneighbors n q_emb top_k);
  for_each (fun '(d, idx) =>
    ms ← read metas;
    match ms with
    | None => raise TypeError
    | Some ms =>
        match ms !! idx with
        | None => raise IndexError
        | Some m => ret {| r_meta := m; similarity := (1 - d)%Q |}
        end
    end) found.

Definition nl : str := [10%N].

Definition PROMPT_HEAD : str := nl ++ lit
"You are an assistant that extracts accurate information ONLY from Freshservice API documentation.

Task:
- Answer the user’s question using ONLY the provided documentation snippets.
- ALWAYS give the output in the following format:

---
curl command:
<the full working curl command here>

Explanation:
<step by step explanation of each parameter, header, and endpoint>

Sources:
- Title: <doc title>, URL: <doc url>
- Title: <doc title>, URL: <doc url>

Confidence: <float between 0 and 1>
---

Documentation snippets:
".

Definition PROMPT_MIDDLE : str := nl ++ nl ++ lit "User Question:" ++ nl.

(** [PROMPT_TEMPLATE.format(snippets=.., question=..)]. *)
Definition PROMPT_TEMPLATE_format (snippets question : str) : str :=
  PROMPT_HEAD ++ snippets ++ PROMPT_MIDDLE ++ question ++ nl.

Definition SYSTEM_MESSAGE : str := lit
"You are a strict assistant that answers only from the provided docs and must follow the response format.".

Definition WARNING : str :=
  lit "⚠️ OpenAI API key not found. Here are the retrieved snippets:" ++ nl ++ nl.

Definition snippet (r : retrieval_result) : str :=
  lit "---" ++ nl ++ lit "Title: " ++ title (r_meta r) ++ nl
    ++ lit "URL: " ++ url (r_meta r) ++ nl
    ++ lit "Excerpt: " ++ text_excerpt (r_meta r) ++ nl
    ++ lit "Similarity: " ++ format_4f (similarity r).

Record citation := {
  c_title : str;
  c_url : str;
  c_similarity : Q
}.

Record answer_response := {
  answer : str;
  citations : list citation;
  confidence : Q
}.

Definition sum (xs : list Q) : Q := foldl Qplus 0%Q xs.

(** The quotient of [sum(..) / max(1, len(results))], as a number. *)
Definition avg_sim (results : list retrieval_result) : Q :=
  (sum (map similarity results) / inject_Z (Z.of_nat (max 1 (length results))))%Q.

(** [answer_query] from the line after [results = retrieve(..)] on.  The
    division is Python's: it raises on a zero divisor. *)
Definition answer_from (question : str) (results : list retrieval_result)
  : M answer_response :=
  let snippets := map snippet results in
  let context := join (nl ++ nl) snippets in
  let prompt := PROMPT_TEMPLATE_format context question in
  content ← match openai_client with
            | Some client =>
                modify (add_call (CallChat prompt)) ;;
                text ← lift (client SYSTEM_MESSAGE prompt);
                ret (strip text)
            | None => ret (WARNING ++ context)
            end;
  avg ← lift (truediv (sum (map similarity results))
                      (inject_Z (Z.of_nat (max 1 (length results)))));
  let cites := map (fun r => {| c_title := title (r_meta r); c_url := url (r_meta r);
                                c_similarity := similarity r |}) results in
  ret {| answer := content; citations := cites; confidence := avg |}.

Definition answer_query (question : str) (top_k : nat) : M answer_response :=
  modify (add_call (CallAnswerQuery question top_k)) ;;
  results ← retrieve question top_k;
  answer_from question results.

End WithModel.
End Rag.

(** ** app.py *)

Module App.
Import Rag.

(** A value of the JSON body, as far as [ask] looks at it: a string, or
    anything else (a number, [null], a list, ...). *)
Inductive json_value :=
  | JString (s : str)
  | JOther.

Section WithModel.
Context `{SentenceModel} `{ChatModel}.

(** What the handlers pass to [jsonify]. *)
Inductive body :=
  | ErrorBody (msg : str)          (* {"error": msg} *)
  | ExceptionBody (e : exn)        (* {"error": str(e)} *)
  | AnswerBody (resp : answer_response)
  | IngestBody (chunks : nat).     (* {"status": "ok", "chunks": chunks} *)

Definition build_index : M (list vec * list meta) :=
  fun p => let '(r, fs) := Ingest.build_index (disk p) in (r, set_disk fs p).

Definition ingest_local : M (nat * body) :=
  try_except
    (r ← build_index; ret (200, IngestBody (length (fst r))))
    (fun e => ret (500, ExceptionBody e)).

(** [data] is the JSON object of the request.  [.strip()] on a value that
    is not a string raises outside the [try], so the exception leaves the
    handler. *)
Definition ask (data : gmap str json_value) : M (nat * body) :=
  match default (JString []) (data !! lit "question") with
  | JOther => raise AttributeError
  | JString s =>
      let q := strip s in
      match q with
      | [] => ret (400, ErrorBody (lit "empty question"))
      | _ :: _ =>
          try_except
            (resp ← answer_query q 4; ret (200, AnswerBody resp))
            (fun e => ret (500, ExceptionBody e))
      end
  end.

End WithModel.
End App.

(** ** scraper.py *)

(** The outside world of the crawler: the web ([web] is its state, which
    a request may change) and the HTML parser.  [requests_get] is
    [requests.get] followed by [raise_for_status] and [.text]. *)
Class Web := {
  html : Type;
  web : Type;
  requests_get : str -> web -> result html * web;
  extract_text_from_page : html -> str -> result (str * str);
  get_links : html -> str -> result (list str)
}.

Module Scraper.

Section WithWeb.
Context `{Web}.

(** The loop of [fetch]: attempt [i] of [retries], [n] attempts left. *)
Fixpoint fetch_loop (url : str) (retries i n : nat) (w : web) : result html * web :=
  match n with
  | 0 => (Raise RuntimeError, w)
  | S n' =>
      match requests_get url w with
      | (Ok text, w') => (Ok text, w')
      | (Raise e, w') =>
          if i =? retries - 1 then (Raise e, w')
          else fetch_loop url retries (S i) n' w'
      end
  end.

Definition fetch (url : str) (retries : nat) (w : web) : result html * web :=
  fetch_loop url retries 0 retries w.

(** The variables of [scrape], with the web and a ghost list of the URLs
    given to [fetch], in order. *)
Record crawl := {
  to_visit : list str;
  visited : gset str;
  docs : list doc;
  outside : web;
  fetched : list str
}.

(** [for l in links: if l not in visited and l not in to_visit:
    to_visit.append(l)]. *)
Definition enqueue (seen : gset str) (frontier links : list str) : list str :=
  foldl (fun tv l => if decide ((l ∉ seen) ∧ (l ∉ tv)) then tv ++ [l] else tv)
        frontier links.

(** The condition of the [while]. *)
Definition running (max_pages : nat) (s : crawl) : bool :=
  match to_visit s with
  | [] => false
  | _ :: _ => bool_decide (size (visited s) < max_pages)
  end.

(** One pass through the body of the [while]. *)
Definition iteration (start_url : str) (s : crawl) : crawl :=
  match to_visit s with
  | [] => s
  | url :: rest =>
      if decide (url ∈ visited s) then
        {| to_visit := rest; visited := visited s; docs := docs s;
           outside := outside s; fetched := fetched s |}
      else
        match fetch url 3 (outside s) with
        | (Raise _, w) =>
            {| to_visit := rest; visited := visited s ∪ {[url]}; docs := docs s;
               outside := w; fetched := fetched s ++ [url] |}
        | (Ok page, w) =>
            let docs' :=
              match extract_text_from_page page url with
              | Ok (t, c) =>
                  docs s ++ [{| doc_url := url; doc_title := t; doc_content := c |}]
              | Raise _ => docs s
              end in
            let visited' := visited s ∪ {[url]} in
            let to_visit' :=
              match get_links page start_url with
              | Ok links => enqueue visited' rest links
              | Raise _ => rest
              end in
            {| to_visit := to_visit'; visited := visited'; docs := docs';
               outside := w; fetched := fetched s ++ [url] |}
        end
  end.

(** The [while] loop, run for at most [fuel] iterations: [None] when the
    fuel runs out before the condition fails. *)
Fixpoint crawl_loop (fuel : nat) (start_url : str) (max_pages : nat) (s : crawl)
  : option crawl :=
  if running max_pages s then
    match fuel with
    | 0 => None
    | S fuel' => crawl_loop fuel' start_url max_pages (iteration start_url s)
    end
  else Some s.

Definition start (start_url : str) (w : web) : crawl :=
  {| to_visit := [start_url]; visited := ∅; docs := []; outside := w; fetched := [] |}.

(** [scrape(start_url, max_pages=..)]: the documents it returns (and
    writes to [out_path]), with the final state of the loop. *)
Definition scrape (fuel : nat) (start_url : str) (max_pages : nat) (w : web)
  : option (list doc * crawl) :=
  match crawl_loop fuel start_url max_pages (start start_url w) with
  | Some s => Some (docs s, s)
  | None => None
  end.

End WithWeb.
End Scraper.

(** * Properties *)

(** ** ingest.py: chunking *)

Section ChunkText.

Lemma range_pos start stop step :
  0 < step ->
  range start stop step
  = Ok (map (fun k => start + k * step) (seq 0 ((stop - start + step - 1) / step))).
Proof. destruct step; [lia | reflexivity]. Qed.

Lemma ceil_covers (n L : nat) : 0 < L -> n <= (n + L - 1) / L * L.
Proof.
  intros HL.
  pose proof (Nat.div_mod_eq (n + L - 1) L) as E.
  pose proof (Nat.mod_upper_bound (n + L - 1) L ltac:(lia)) as B.
  nia.
Qed.

Lemma ceil_tight (n L : nat) : 0 < L -> ((n + L - 1) / L - 1) * L <= n - 1.
Proof.
  intros HL.
  pose proof (Nat.div_mod_eq (n + L - 1) L) as E.
  nia.
Qed.

(** The chunks, written without [range]. *)
Definition chunks_of (text : str) (L : nat) : list str :=
  map (fun k => slice text (k * L) (k * L + L)) (seq 0 ((length text + L - 1) / L)).

Lemma chunk_text_pos (text : str) (L : nat) :
  0 < L -> Ingest.chunk_text text L = Ok (chunks_of text L).
Proof.
  intros HL. unfold Ingest.chunk_text, chunks_of.
  rewrite (range_pos 0 (length text) L HL). cbn [rbind].
  rewrite Nat.sub_0_r, map_map. reflexivity.
Qed.

Lemma concat_slices (t : str) (L n : nat) :
  concat (map (fun k => slice t (k * L) (k * L + L)) (seq 0 n)) = take (n * L) t.
Proof.
  induction n as [|n IH].
  - reflexivity.
  - rewrite seq_S, map_app, concat_app, IH. cbn [map concat Nat.add].
    rewrite app_nil_r. unfold slice.
    replace (n * L + L - n * L) with L by lia.
    rewrite take_take_drop. f_equal. lia.
Qed.

Lemma length_slice (t : str) (i j : nat) :
  length (slice t i j) = Nat.min (j - i) (length t - i).
Proof. unfold slice. rewrite length_take, length_drop. reflexivity. Qed.

Lemma concat_chunks_of (t : str) (L : nat) : 0 < L -> concat (chunks_of t L) = t.
Proof.
  intros HL. unfold chunks_of. rewrite concat_slices.
  apply take_ge, ceil_covers, HL.
Qed.

Lemma chunks_of_bounded (t : str) (L : nat) :
  Forall (fun c => length c <= L) (chunks_of t L).
Proof.
  unfold chunks_of. apply Forall_forall. intros c Hc.
  apply list_elem_of_In, in_map_iff in Hc as (k & <- & _).
  rewrite length_slice. lia.
Qed.

Lemma removelast_map {A B} (f : A -> B) (l : list A) :
  removelast (map f l) = map f (removelast l).
Proof.
  induction l as [|a [|b l] IH]; try reflexivity.
  cbn [map removelast] in *. now rewrite IH.
Qed.

Lemma removelast_seq (a n : nat) : removelast (seq a n) = seq a (n - 1).
Proof.
  destruct n as [|n]; [reflexivity|].
  rewrite seq_S, removelast_last. f_equal. lia.
Qed.

Lemma chunks_of_full (t : str) (L : nat) :
  0 < L -> Forall (fun c => length c = L) (removelast (chunks_of t L)).
Proof.
  intros HL. unfold chunks_of. rewrite removelast_map, removelast_seq.
  apply Forall_forall. intros c Hc.
  apply list_elem_of_In, in_map_iff in Hc as (k & <- & Hk). apply in_seq in Hk.
  rewrite length_slice.
  pose proof (ceil_tight (length t) L HL) as T.
  assert (k * L + L <= length t) by nia. lia.
Qed.

Lemma chunks_of_nonempty (t : str) (L : nat) :
  0 < L -> Forall (fun c => c <> []) (chunks_of t L).
Proof.
  intros HL. unfold chunks_of. apply Forall_forall. intros c Hc.
  apply list_elem_of_In, in_map_iff in Hc as (k & <- & Hk). apply in_seq in Hk.
  intros E. apply (f_equal length) in E. rewrite length_slice in E. cbn in E.
  pose proof (Nat.div_mod_eq (length t + L - 1) L) as D.
  pose proof (Nat.mod_upper_bound (length t + L - 1) L ltac:(lia)) as B.
  assert (k * L < length t) by nia. lia.
Qed.

(** C2. With the default maximum length of 500, [chunk_text] returns
    chunks whose concatenation is the text, so that their lengths add up
    to the length of the text; no chunk is longer than 500 characters,
    and every chunk but the last has exactly 500. *)
Theorem chunk_text_partition (text : str) :
  exists chunks,
    Ingest.chunk_text text Ingest.CHUNK_SIZE = Ok chunks
    /\ concat chunks = text
    /\ sum_list (map length chunks) = length text
    /\ Forall (fun c => length c <= 500) chunks
    /\ Forall (fun c => length c = 500) (removelast chunks).
Proof.
  assert (HL : 0 < Ingest.CHUNK_SIZE) by (unfold Ingest.CHUNK_SIZE; lia).
  exists (chunks_of text Ingest.CHUNK_SIZE). split; [|split; [|split; [|split]]].
  - apply chunk_text_pos, HL.
  - apply concat_chunks_of, HL.
  - rewrite <- (concat_chunks_of text Ingest.CHUNK_SIZE HL) at 2.
    symmetry. apply length_concat.
  - apply (chunks_of_bounded text Ingest.CHUNK_SIZE).
  - apply (chunks_of_full text Ingest.CHUNK_SIZE), HL.
Qed.

End ChunkText.

(** ** ingest.py: the index *)

Section BuildIndex.
Context `{SentenceModel}.

(** The metadata that [build_index] writes for chunk [cid] of document
    [idx]. *)
Definition meta_of (idx : nat) (d : doc) (cid : nat) (chunk : str) : meta :=
  {| doc_id := idx; chunk_id := cid; title := doc_title d; url := doc_url d;
     text_excerpt := take 400 chunk |}.

(** Entry [p] of the parallel lists is chunk [cid] of document [idx] of
    [ds], the documents being numbered from [idx0]. *)
Definition describes (idx0 : nat) (ds : list doc) (p : str * meta) : Prop :=
  exists k d chunks,
    ds !! k = Some d
    /\ Ingest.chunk_text (doc_content d) Ingest.CHUNK_SIZE = Ok chunks
    /\ chunks !! chunk_id (snd p) = Some (fst p)
    /\ snd p = meta_of (idx0 + k) d (chunk_id (snd p)) (fst p).

(** The order of the entries: by document, then by chunk. *)
Definition before (m1 m2 : meta) : Prop :=
  doc_id m1 < doc_id m2 \/ (doc_id m1 = doc_id m2 /\ chunk_id m1 < chunk_id m2).

Lemma chunk_metas_lookup idx d c0 chunks i :
  Ingest.chunk_metas idx d c0 chunks !! i
  = (fun chunk => (chunk, meta_of idx d (c0 + i) chunk)) <$> chunks !! i.
Proof.
  revert c0 i. induction chunks as [|c chunks IH]; intros c0 i.
  - reflexivity.
  - destruct i as [|i]; cbn.
    + unfold meta_of, slice. rewrite Nat.add_0_r. reflexivity.
    + rewrite IH. replace (S c0 + i) with (c0 + S i) by lia. reflexivity.
Qed.

Lemma chunk_metas_length idx d c0 chunks :
  length (Ingest.chunk_metas idx d c0 chunks) = length chunks.
Proof.
  revert c0. induction chunks as [|c chunks IH]; intros c0; cbn; [|rewrite IH]; reflexivity.
Qed.

Lemma describes_shift idx0 d ds p : describes (S idx0) ds p -> describes idx0 (d :: ds) p.
Proof.
  intros (k & d' & chunks & Hk & Hc & Hl & Hm).
  exists (S k), d', chunks. repeat split; try assumption.
  rewrite Hm at 1. f_equal. lia.
Qed.

Lemma collect_ok idx0 ds :
  exists pairs,
    Ingest.collect idx0 ds = Ok pairs
    /\ (forall i p, pairs !! i = Some p -> describes idx0 ds p /\ idx0 <= doc_id (snd p))
    /\ (forall i j p q, i < j -> pairs !! i = Some p -> pairs !! j = Some q ->
          before (snd p) (snd q)).
Proof.
  revert idx0. induction ds as [|d ds IH]; intros idx0.
  - exists []. split; [reflexivity|]. split; intros; discriminate.
  - destruct (IH (S idx0)) as (later & Hlater & Hdesc & Hord).
    cbn [Ingest.collect]. destruct (doc_content d) as [|c0 content] eqn:Hcontent.
    + exists later. split; [assumption|]. split.
      * intros i p Hp. destruct (Hdesc i p Hp) as [D B].
        split; [apply describes_shift, D | lia].
      * exact Hord.
    + assert (HL : 0 < Ingest.CHUNK_SIZE) by (unfold Ingest.CHUNK_SIZE; lia).
      pose proof (chunk_text_pos (c0 :: content) Ingest.CHUNK_SIZE HL) as Hchunks.
      rewrite Hchunks, Hlater. cbn [rbind].
      set (chunks := chunks_of (c0 :: content) Ingest.CHUNK_SIZE) in *.
      set (mine := Ingest.chunk_metas idx0 d 0 chunks).
      assert (Hmine : forall i p, mine !! i = Some p ->
                exists chunk, chunks !! i = Some chunk /\ p = (chunk, meta_of idx0 d i chunk)).
      { intros i p Hp. unfold mine in Hp. rewrite chunk_metas_lookup in Hp.
        destruct (chunks !! i) as [chunk|]; [|discriminate].
        injection Hp as <-. exists chunk. split; reflexivity. }
      exists (mine ++ later). split; [reflexivity|]. split.
      * intros i p Hp. apply lookup_app_Some in Hp as [Hp|[_ Hp]].
        -- destruct (Hmine i p Hp) as (chunk & Hc & ->). split; [|cbn; lia].
           exists 0, d, chunks. cbn. rewrite Hcontent, Nat.add_0_r.
           repeat split; assumption.
        -- destruct (Hdesc _ p Hp) as [D B]. split; [apply describes_shift, D | lia].
      * intros i j p q Hij Hp Hq.
        apply lookup_app_Some in Hp as [Hp|[Hi Hp]];
          apply lookup_app_Some in Hq as [Hq|[Hj Hq]].
        -- destruct (Hmine i p Hp) as (cp & _ & ->).
           destruct (Hmine j q Hq) as (cq & _ & ->). right. cbn. lia.
        -- destruct (Hmine i p Hp) as (cp & _ & ->).
           destruct (Hdesc _ q Hq) as [_ B]. left. cbn. lia.
        -- apply lookup_lt_Some in Hq. lia.
        -- apply (Hord (i - length mine) (j - length mine)); [lia | assumption..].
Qed.

(** C1. When [data/docs.json] exists, [build_index] returns and writes an
    embedding matrix and a metadata array of the same length; row [i] of
    the matrix is the embedding of a chunk of a document, and entry [i]
    of the metadata names that document and chunk, with the first 400
    characters of the chunk as its excerpt; the entries are in the order
    of the documents and, within a document, of its chunks. *)
Theorem build_index_aligned (fs : files) (ds : list doc) :
  docs_json fs = Some ds ->
  exists E Ms,
    Ingest.build_index fs
    = (Ok (E, Ms),
       {| docs_json := Some ds; embeddings_npy := Some E; metadata_json := Some Ms |})
    /\ length Ms = length E
    /\ (forall i, i < length E ->
          exists k d chunks chunk m,
            ds !! k = Some d
            /\ Ingest.chunk_text (doc_content d) Ingest.CHUNK_SIZE = Ok chunks
            /\ chunks !! chunk_id m = Some chunk
            /\ E !! i = Some (encode chunk)
            /\ Ms !! i = Some m
            /\ doc_id m = k /\ title m = doc_title d /\ url m = doc_url d
            /\ text_excerpt m = take 400 chunk)
    /\ (forall i j mi mj, i < j -> Ms !! i = Some mi -> Ms !! j = Some mj ->
          before mi mj).
Proof.
  intros Hdocs. destruct (collect_ok 0 ds) as (pairs & Hpairs & Hdesc & Hord).
  exists (map encode (map fst pairs)), (map snd pairs).
  unfold Ingest.build_index. rewrite Hdocs, Hpairs. cbn.
  split; [reflexivity|]. split; [now rewrite !length_map|]. split.
  - intros i Hi. rewrite !length_map in Hi.
    destruct (lookup_lt_is_Some_2 pairs i Hi) as [[chunk m] Hp].
    destruct (Hdesc i _ Hp) as [(k & d & chunks & Hk & Hc & Hl & Hm) _].
    cbn in *. exists k, d, chunks, chunk, m.
    rewrite !list_lookup_fmap, Hp. cbn.
    repeat split; try assumption; rewrite Hm; reflexivity.
  - intros i j mi mj Hij Hi Hj.
    rewrite list_lookup_fmap in Hi, Hj.
    destruct (pairs !! i) as [p|] eqn:Hp; [|discriminate].
    destruct (pairs !! j) as [q|] eqn:Hq; [|discriminate].
    injection Hi as <-. injection Hj as <-.
    exact (Hord i j p q Hij Hp Hq).
Qed.

End BuildIndex.

(** ** rag.py: nearest neighbours *)

Section Neighbours.
Context `{SentenceModel}.
Import Rag.

Definition nearer (a b : Q * nat) : Prop := (fst a <= fst b)%Q.

Lemma insert_by_distance_Forall (P : Q * nat -> Prop) x l :
  P x -> Forall P l -> Forall P (insert_by_distance x l).
Proof.
  intros Px. induction 1 as [|y l Py Hl IH]; cbn.
  - repeat constructor; assumption.
  - destruct (Qle_bool (fst x) (fst y)); repeat constructor; assumption.
Qed.

Lemma insert_by_distance_length x l :
  length (insert_by_distance x l) = S (length l).
Proof.
  induction l as [|y l IH]; cbn; [reflexivity|].
  destruct (Qle_bool (fst x) (fst y)); cbn; [|rewrite IH]; reflexivity.
Qed.

Lemma insert_by_distance_sorted x l :
  StronglySorted nearer l -> StronglySorted nearer (insert_by_distance x l).
Proof.
  induction 1 as [|y l Hl IH Hy]; cbn.
  - repeat constructor.
  - destruct (Qle_bool (fst x) (fst y)) eqn:Hxy.
    + apply Qle_bool_iff in Hxy.
      constructor; [constructor; assumption|].
      constructor; [exact Hxy|].
      eapply Forall_impl; [exact Hy|].
      intros z Hz. unfold nearer in *. lra.
    + assert (Hyx : nearer y x).
      { unfold nearer. destruct (Qlt_le_dec (fst y) (fst x)) as [Hlt|Hle].
        - lra.
        - apply Qle_bool_iff in Hle. congruence. }
      constructor; [exact IH|].
      apply insert_by_distance_Forall; assumption.
Qed.

Lemma sort_by_distance_length l : length (sort_by_distance l) = length l.
Proof.
  induction l as [|x l IH]; cbn; [reflexivity|].
  unfold sort_by_distance in IH. rewrite insert_by_distance_length, IH. reflexivity.
Qed.

Lemma sort_by_distance_sorted l : StronglySorted nearer (sort_by_distance l).
Proof.
  induction l as [|x l IH]; cbn; [constructor|].
  apply insert_by_distance_sorted, IH.
Qed.

Lemma sort_by_distance_Forall (P : Q * nat -> Prop) l :
  Forall P l -> Forall P (sort_by_distance l).
Proof.
  induction 1 as [|x l Px Hl IH]; cbn; [constructor|].
  apply insert_by_distance_Forall; assumption.
Qed.

Lemma sorted_lookup (l : list (Q * nat)) i j a b :
  StronglySorted nearer l -> i <= j -> l !! i = Some a -> l !! j = Some b -> nearer a b.
Proof.
  intros Hs. revert i j. induction Hs as [|x l Hl IH Hx]; intros i j Hij Ha Hb.
  - discriminate.
  - destruct i as [|i], j as [|j]; cbn in *; try lia.
    + injection Ha as <-. injection Hb as <-. unfold nearer. lra.
    + injection Ha as <-. rewrite Forall_forall in Hx.
      apply Hx, list_elem_of_lookup. eauto.
    + apply (IH i j); [lia | assumption..].
Qed.

(** What [kneighbors] finds on the matrix [X], when it returns. *)
Definition neighbours (X : list vec) (q : vec) (k : nat) : list (Q * nat) :=
  take k (sort_by_distance (imap (fun i row => (cosine_distance q row, i)) X)).

Lemma kneighbors_fitted n X q k :
  fit_X n = Some X -> 1 <= k <= length X ->
  kneighbors n q k = Ok (neighbours X q k).
Proof.
  intros HX Hk. unfold kneighbors. rewrite HX.
  destruct (Nat.eqb_spec k 0); [lia|].
  destruct (Nat.ltb_spec (length X) k); [lia|]. reflexivity.
Qed.

Lemma kneighbors_too_many n X q k :
  fit_X n = Some X -> length X < k -> kneighbors n q k = Raise ValueError.
Proof.
  intros HX Hk. unfold kneighbors. rewrite HX.
  destruct (Nat.eqb_spec k 0); [reflexivity|].
  destruct (Nat.ltb_spec (length X) k); [reflexivity|lia].
Qed.

Lemma kneighbors_inv n q k found :
  kneighbors n q k = Ok found ->
  exists X, fit_X n = Some X /\ 1 <= k <= length X /\ found = neighbours X q k.
Proof.
  unfold kneighbors. destruct (fit_X n) as [X|]; [|discriminate].
  destruct (Nat.eqb_spec k 0); [discriminate|].
  destruct (Nat.ltb_spec (length X) k); [discriminate|].
  intros [= <-]. exists X. repeat split; lia.
Qed.

Lemma neighbours_length X q k : k <= length X -> length (neighbours X q k) = k.
Proof.
  intros Hk. unfold neighbours.
  rewrite length_take, sort_by_distance_length, length_imap. lia.
Qed.

Lemma neighbours_sorted X q k i j a b :
  i <= j -> neighbours X q k !! i = Some a -> neighbours X q k !! j = Some b ->
  nearer a b.
Proof.
  unfold neighbours. intros Hij Ha Hb.
  apply lookup_take_Some in Ha as [Ha _]. apply lookup_take_Some in Hb as [Hb _].
  eapply sorted_lookup; eauto using sort_by_distance_sorted.
Qed.

Lemma neighbours_rows X q k :
  Forall (fun f => exists row, X !! snd f = Some row /\ fst f = cosine_distance q row)
         (neighbours X q k).
Proof.
  unfold neighbours. apply Forall_take, sort_by_distance_Forall.
  apply Forall_forall. intros f Hf.
  apply elem_of_lookup_imap in Hf as (i & row & -> & Hrow).
  exists row. split; [exact Hrow | reflexivity].
Qed.

End Neighbours.

(** ** rag.py: running the state transformers *)

Section Run.
Context `{SentenceModel}.
Import Rag.

Lemma run_bind {A B} (c : M A) (f : A -> M B) (p : process) :
  (c ≫= f) p
  = match c p with
    | (Ok a, p') => f a p'
    | (Raise e, p') => (Raise e, p')
    end.
Proof. reflexivity. Qed.

Lemma run_read {A} (f : process -> A) (p : process) : read f p = (Ok (f p), p).
Proof. reflexivity. Qed.

Lemma run_modify (f : process -> process) (p : process) : modify f p = (Ok tt, f p).
Proof. reflexivity. Qed.

Lemma run_ret {A} (a : A) (p : process) : ret a p = (Ok a, p).
Proof. reflexivity. Qed.

Lemma run_raise {A} (e : exn) (p : process) : raise (A := A) e p = (Raise e, p).
Proof. reflexivity. Qed.

Lemma run_lift {A} (r : result A) (p : process) : lift r p = (r, p).
Proof. reflexivity. Qed.

End Run.

Ltac fields :=
  cbn [Rag.embeddings Rag.metas Rag.nn Rag.disk Rag.calls Rag.add_call
       Rag.set_embeddings Rag.set_metas Rag.set_nn Rag.set_disk].

Ltac run :=
  repeat (first [ rewrite run_bind | rewrite run_read | rewrite run_modify
                | rewrite run_ret | rewrite run_raise | rewrite run_lift ];
          cbv beta iota; fields).

(** ** rag.py: retrieval *)

Section Retrieve.
Context `{SentenceModel}.
Import Rag.

Definition fitted (E : list vec) : NearestNeighbors :=
  {| n_neighbors := 8; fit_X := Some E |}.

(** The index [E], [Ms] is in the globals. *)
Definition loaded (E : list vec) (Ms : list meta) (p : process) : Prop :=
  embeddings p = Some E /\ metas p = Some Ms /\ nn p = Some (fitted E).

(** A fresh process: nothing loaded, the index [E], [Ms] on disk. *)
Definition on_disk (E : list vec) (Ms : list meta) (p : process) : Prop :=
  embeddings p = None /\ metas p = None /\ nn p = None
  /\ embeddings_npy (disk p) = Some E /\ metadata_json (disk p) = Some Ms.

Definition indexed (E : list vec) (Ms : list meta) (p : process) : Prop :=
  loaded E Ms p \/ on_disk E Ms p.

(** The process after a retrieval. *)
Definition warm (E : list vec) (Ms : list meta) (p : process) (c : call) : process :=
  {| disk := disk p; embeddings := Some E; metas := Some Ms;
     nn := Some (fitted E); calls := calls p ++ [c] |}.

(** One pass of the loop of [retrieve]. *)
Definition result_of (Ms : list meta) (f : Q * nat) : result retrieval_result :=
  match Ms !! snd f with
  | None => Raise IndexError
  | Some m => Ok {| r_meta := m; similarity := (1 - fst f)%Q |}
  end.

Lemma for_each_metas Ms found p :
  metas p = Some Ms ->
  for_each (fun '(d, idx) =>
    ms ← read metas;
    match ms with
    | None => raise TypeError
    | Some ms =>
        match ms !! idx with
        | None => raise IndexError
        | Some m => ret {| r_meta := m; similarity := (1 - d)%Q |}
        end
    end) found p
  = (rmap (result_of Ms) found, p).
Proof.
  intros HMs. induction found as [|[d idx] found IH]; [reflexivity|].
  cbn [for_each rmap]. run. rewrite HMs.
  unfold result_of at 1. cbn [snd fst].
  destruct (Ms !! idx) as [m|]; run; [|reflexivity].
  cbn [rbind]. rewrite IH.
  destruct (rmap (result_of Ms) found); reflexivity.
Qed.

Lemma retrieve_indexed E Ms p q k :
  indexed E Ms p -> E <> [] ->
  retrieve q k p
  = (rbind (kneighbors (fitted E) (encode q) k) (rmap (result_of Ms)),
     warm E Ms p (CallRetrieve q k)).
Proof.
  intros [(HE & HMs & Hnn)|(HE & HMs & Hnn & HfE & HfM)] Hne.
  - unfold retrieve. run. rewrite Hnn. run.
    assert (Hp : add_call (CallRetrieve q k) p = warm E Ms p (CallRetrieve q k)).
    { unfold warm, add_call. rewrite HE, HMs, Hnn. reflexivity. }
    rewrite Hp.
    destruct (kneighbors (fitted E) (encode q) k) as [found|e]; cbn [rbind].
    + apply for_each_metas. reflexivity.
    + reflexivity.
  - unfold retrieve. run. rewrite Hnn. unfold load_index. run.
    rewrite HE. run. rewrite HfE. run. rewrite HMs. run. rewrite HfM. run.
    destruct E as [|row E]; [contradiction|].
    cbn [default from_option id fit n_neighbors]. run.
    fold (fitted (row :: E)).
    destruct (kneighbors (fitted (row :: E)) (encode q) k) as [found|e]; cbn [rbind].
    + apply for_each_metas. reflexivity.
    + reflexivity.
Qed.

Lemma retrieve_empty_index Ms p q k :
  indexed [] Ms p -> exists p', retrieve q k p = (Raise ValueError, p').
Proof.
  intros [(HE & HMs & Hnn)|(HE & HMs & Hnn & HfE & HfM)].
  - unfold retrieve. run. rewrite Hnn. run.
    unfold kneighbors. cbn [fit_X fitted length].
    destruct k; cbn; eauto.
  - unfold retrieve. run. rewrite Hnn. unfold load_index. run.
    rewrite HE. run. rewrite HfE. run. rewrite HMs. run. rewrite HfM. run.
    cbn [default from_option id fit]. run. eauto.
Qed.

Lemma rmap_ok {A B} (f : A -> result B) (l : list A) (bs : list B) :
  rmap f l = Ok bs ->
  length bs = length l
  /\ forall i b, bs !! i = Some b -> exists a, l !! i = Some a /\ f a = Ok b.
Proof.
  revert bs. induction l as [|a l IH]; intros bs; cbn.
  - intros [= <-]. split; [reflexivity|]. intros; discriminate.
  - destruct (f a) as [b|] eqn:Hb; [|discriminate]. cbn.
    destruct (rmap f l) as [bs'|]; [|discriminate]. cbn.
    intros [= <-]. destruct (IH bs' eq_refl) as [Hlen Hall].
    split; [cbn; now rewrite Hlen|].
    intros [|i] b'; cbn.
    + intros [= <-]. eauto.
    + apply Hall.
Qed.

Lemma rmap_total {A B} (f : A -> result B) (l : list A) :
  Forall (fun a => exists b, f a = Ok b) l -> exists bs, rmap f l = Ok bs.
Proof.
  induction 1 as [|a l [b Hb] Hl [bs IH]]; cbn; [eauto|].
  rewrite Hb, IH. cbn. eauto.
Qed.

(** What a returned result is: the metadata at a row of the index with
    one minus the distance of the query to that row. *)
Lemma retrieve_results E Ms p q k results p' :
  indexed E Ms p -> retrieve q k p = (Ok results, p') ->
  1 <= k <= length E
  /\ p' = warm E Ms p (CallRetrieve q k)
  /\ rmap (result_of Ms) (neighbours E (encode q) k) = Ok results.
Proof.
  intros Hidx Hret.
  destruct E as [|row E].
  - destruct (retrieve_empty_index Ms p q k Hidx) as [p'' Hp'']. congruence.
  - rewrite (retrieve_indexed (row :: E) Ms p q k Hidx) in Hret by discriminate.
    injection Hret as Hres <-.
    destruct (kneighbors (fitted (row :: E)) (encode q) k) as [found|e] eqn:Hk;
      [|discriminate].
    apply kneighbors_inv in Hk as (X & [= <-] & Hk & ->).
    repeat split; tauto.
Qed.

End Retrieve.

Section RetrieveClaims.
Context `{SentenceModel}.
Import Rag.

Lemma indexed_add_call E Ms p c : indexed E Ms p -> indexed E Ms (add_call c p).
Proof. intros [L|D]; [left|right]; exact L || exact D. Qed.

Lemma result_of_total E Ms q k :
  length E <= length Ms ->
  Forall (fun f => exists r, result_of Ms f = Ok r) (neighbours E q k).
Proof.
  intros Hlen. eapply Forall_impl; [apply neighbours_rows|].
  intros [d idx] (row & Hrow & _). cbn in Hrow. unfold result_of. cbn.
  apply lookup_lt_Some in Hrow.
  destruct (lookup_lt_is_Some_2 Ms idx ltac:(lia)) as [m ->]. eauto.
Qed.

(** C3 (amended). On an index of [length E] chunks with its metadata, a
    call [retrieve(query, top_k=k)] with [1 <= k <= length E] returns
    exactly [k] results (which is [min k (length E)]), in order of
    non-increasing similarity.  With [k] above the number of chunks the
    nearest-neighbour search raises [ValueError]: nothing is returned. *)
Theorem retrieve_top_k (E : list vec) (Ms : list meta) (p : process) (q : str) (k : nat) :
  indexed E Ms p -> length E <= length Ms -> 1 <= k ->
  (k <= length E ->
     exists results,
       retrieve q k p = (Ok results, warm E Ms p (CallRetrieve q k))
       /\ length results = Nat.min k (length E)
       /\ forall i j ri rj, i <= j -> results !! i = Some ri -> results !! j = Some rj ->
            (similarity rj <= similarity ri)%Q)
  /\ (length E < k -> exists p', retrieve q k p = (Raise ValueError, p')).
Proof.
  intros Hidx Hlen Hk. split.
  - intros HkE.
    assert (Hne : E <> []) by (destruct E; [cbn in HkE; lia | discriminate]).
    rewrite (retrieve_indexed E Ms p q k Hidx Hne).
    rewrite (kneighbors_fitted (fitted E) E) by (reflexivity || lia). cbn [rbind].
    destruct (rmap_total (result_of Ms) (neighbours E (encode q) k)
                (result_of_total E Ms (encode q) k Hlen)) as [results Hres].
    exists results. rewrite Hres. split; [reflexivity|].
    destruct (rmap_ok _ _ _ Hres) as [Hlr Hall].
    split; [rewrite Hlr, neighbours_length by lia; lia|].
    intros i j ri rj Hij Hi Hj.
    destruct (Hall i ri Hi) as (fi & Hfi & Hri).
    destruct (Hall j rj Hj) as (fj & Hfj & Hrj).
    pose proof (neighbours_sorted E (encode q) k i j fi fj Hij Hfi Hfj) as Hn.
    unfold result_of in Hri, Hrj.
    destruct (Ms !! snd fi); [|discriminate]. destruct (Ms !! snd fj); [|discriminate].
    injection Hri as <-. injection Hrj as <-. cbn. unfold nearer in Hn. lra.
  - intros HkE. destruct E as [|row E].
    + apply (retrieve_empty_index Ms p q k Hidx).
    + rewrite (retrieve_indexed (row :: E) Ms p q k Hidx) by discriminate.
      rewrite (kneighbors_too_many (fitted (row :: E)) (row :: E)) by (reflexivity || lia).
      cbn [rbind]. eauto.
Qed.

Lemma retrieved_rows (E : list vec) (Ms : list meta) (p : process) (q : str)
    (k : nat) (results : list retrieval_result) (p' : process) :
  indexed E Ms p -> retrieve q k p = (Ok results, p') ->
  Forall (fun r => exists i row,
            E !! i = Some row
            /\ Ms !! i = Some (r_meta r)
            /\ similarity r = (1 - cosine_distance (encode q) row)%Q)
         results.
Proof.
  intros Hidx Hret.
  destruct (retrieve_results E Ms p q k results p' Hidx Hret) as (Hk & _ & Hres).
  destruct (rmap_ok _ _ _ Hres) as [_ Hall].
  apply Forall_forall. intros r Hr.
  apply list_elem_of_lookup in Hr as [i Hi].
  destruct (Hall i r Hi) as ([d idx] & Hf & Hr).
  pose proof (neighbours_rows E (encode q) k) as Hrows.
  rewrite Forall_forall in Hrows.
  destruct (Hrows (d, idx)) as (row & Hrow & Hd).
  { apply list_elem_of_lookup. eauto. }
  cbn in Hrow, Hd. unfold result_of in Hr. cbn in Hr.
  destruct (Ms !! idx) as [m|] eqn:Hm; [|discriminate]. injection Hr as <-.
  exists idx, row. cbn. subst d. repeat split; assumption.
Qed.

(** C4. Each result that [retrieve] returns carries the metadata of a row
    of the index and, as its similarity, one minus the cosine distance of
    the query to that row; when that distance is in [0, 2], the
    similarity is in [-1, 1]. *)
Theorem retrieve_similarity (E : list vec) (Ms : list meta) (p : process) (q : str)
    (k : nat) (results : list retrieval_result) (p' : process) :
  indexed E Ms p -> retrieve q k p = (Ok results, p') ->
  Forall (fun r => exists i row,
            E !! i = Some row
            /\ Ms !! i = Some (r_meta r)
            /\ similarity r = (1 - cosine_distance (encode q) row)%Q
            /\ ((0 <= cosine_distance (encode q) row <= 2)%Q ->
                (- (1) <= similarity r <= 1)%Q))
         results.
Proof.
  intros Hidx Hret.
  eapply Forall_impl; [exact (retrieved_rows E Ms p q k results p' Hidx Hret)|].
  intros r (i & row & Hrow & Hmeta & Hsim). exists i, row.
  split; [exact Hrow|]. split; [exact Hmeta|]. split; [exact Hsim|].
  intros Hrange. rewrite Hsim. lra.
Qed.

End RetrieveClaims.

(** ** rag.py: answers *)

(** The unweighted arithmetic mean, as the specification words it. *)
Definition mean (xs : list Q) : Q :=
  (foldr Qplus 0 xs / inject_Z (Z.of_nat (length xs)))%Q.

Section Mean.
Import Rag.

Lemma sum_foldr (xs : list Q) (a : Q) : (foldl Qplus a xs == a + foldr Qplus 0 xs)%Q.
Proof.
  revert a. induction xs as [|x xs IH]; intros a; cbn.
  - lra.
  - rewrite IH. lra.
Qed.

Lemma sum_bounds (xs : list Q) :
  Forall (fun x => (- (1) <= x <= 1)%Q) xs ->
  (- inject_Z (Z.of_nat (length xs)) <= foldr Qplus 0 xs
   <= inject_Z (Z.of_nat (length xs)))%Q.
Proof.
  induction 1 as [|x xs Hx Hxs IH].
  - split; unfold Qle; cbn; lia.
  - cbn [length foldr]. rewrite Nat2Z.inj_succ. unfold Z.succ.
    rewrite inject_Z_plus. change (inject_Z 1) with 1%Q.
    generalize dependent (inject_Z (Z.of_nat (length xs))).
    generalize (foldr Qplus 0%Q xs). intros s n Hn. lra.
Qed.

Lemma count_positive (n : nat) : (0 < inject_Z (Z.of_nat (Nat.max 1 n)))%Q.
Proof. change 0%Q with (inject_Z 0). rewrite <- Zlt_Qlt. lia. Qed.

Lemma truediv_nonzero (x y : Q) : ~ (y == 0)%Q -> truediv x y = Ok (x / y)%Q.
Proof.
  intros Hy. unfold truediv. destruct (Qeq_bool y 0) eqn:Hb; [|reflexivity].
  apply Qeq_bool_iff in Hb. contradiction.
Qed.

Lemma truediv_zero (x y : Q) : (y == 0)%Q -> truediv x y = Raise ZeroDivisionError.
Proof.
  intros Hy. unfold truediv. apply Qeq_bool_iff in Hy. rewrite Hy. reflexivity.
Qed.

(** With the guard the division of [answer_query] returns the mean. *)
Lemma truediv_guarded `{SentenceModel} (results : list retrieval_result) :
  truediv (sum (map similarity results))
          (inject_Z (Z.of_nat (Nat.max 1 (length results))))
  = Ok (avg_sim results).
Proof.
  apply truediv_nonzero. intros Hz.
  pose proof (count_positive (length results)) as Hpos.
  rewrite Hz in Hpos. revert Hpos. apply Qlt_irrefl.
Qed.

(** Without the guard the same division raises on zero results. *)
Lemma truediv_unguarded `{SentenceModel} (results : list retrieval_result) :
  results = [] ->
  truediv (sum (map similarity results)) (inject_Z (Z.of_nat (length results)))
  = Raise ZeroDivisionError.
Proof. intros ->. reflexivity. Qed.

Lemma avg_sim_mean `{SentenceModel} (results : list retrieval_result) :
  results <> [] -> (avg_sim results == mean (map similarity results))%Q.
Proof.
  intros Hne. unfold avg_sim, mean, sum. rewrite sum_foldr, length_map.
  replace (Nat.max 1 (length results)) with (length results)
    by (destruct results; [contradiction | cbn; lia]).
  rewrite Qplus_0_l. reflexivity.
Qed.

Lemma avg_sim_bounds `{SentenceModel} (results : list retrieval_result) :
  Forall (fun r => (- (1) <= similarity r <= 1)%Q) results ->
  (- (1) <= avg_sim results <= 1)%Q.
Proof.
  intros Hall. unfold avg_sim, sum.
  pose proof (count_positive (length results)) as Hpos.
  assert (Hs : Forall (fun x => (- (1) <= x <= 1)%Q) (map similarity results)).
  { apply Forall_fmap. exact Hall. }
  apply sum_bounds in Hs. rewrite length_map in Hs.
  pose proof (sum_foldr (map similarity results) 0) as Hf.
  assert (Hle : (inject_Z (Z.of_nat (length results))
                 <= inject_Z (Z.of_nat (Nat.max 1 (length results))))%Q).
  { rewrite <- Zle_Qle. lia. }
  split.
  - apply Qle_shift_div_l; [exact Hpos|]. lra.
  - apply Qle_shift_div_r; [exact Hpos|]. lra.
Qed.

End Mean.

Section Answer.
Context `{SentenceModel} `{Rag.ChatModel}.
Import Rag.

(** The value that [answer_query] returns around the text [content]. *)
Definition response (content : str) (results : list retrieval_result)
  : answer_response :=
  {| answer := content;
     citations := map (fun r => {| c_title := title (r_meta r); c_url := url (r_meta r);
                                   c_similarity := similarity r |}) results;
     confidence := avg_sim results |}.

(** The prompt built from the results. *)
Definition prompt_of (question : str) (results : list retrieval_result) : str :=
  PROMPT_TEMPLATE_format (join (nl ++ nl) (map snippet results)) question.

Lemma answer_query_run q k p :
  answer_query q k p
  = match retrieve q k (add_call (CallAnswerQuery q k) p) with
    | (Ok results, p') => answer_from q results p'
    | (Raise e, p') => (Raise e, p')
    end.
Proof. reflexivity. Qed.

Lemma answer_from_no_client q results p :
  openai_client = None ->
  answer_from q results p
  = (Ok (response (WARNING ++ join (nl ++ nl) (map snippet results)) results), p).
Proof.
  intros Hc. unfold answer_from. rewrite Hc. run.
  rewrite truediv_guarded. reflexivity.
Qed.

Lemma answer_from_client client q results p :
  openai_client = Some client ->
  answer_from q results p
  = match client SYSTEM_MESSAGE (prompt_of q results) with
    | Ok text =>
        (Ok (response (strip text) results),
         add_call (CallChat (prompt_of q results)) p)
    | Raise e => (Raise e, add_call (CallChat (prompt_of q results)) p)
    end.
Proof.
  intros Hc. unfold answer_from. rewrite Hc. run.
  fold (prompt_of q results).
  destruct (client SYSTEM_MESSAGE (prompt_of q results)); [|reflexivity].
  run. rewrite truediv_guarded. reflexivity.
Qed.

Lemma answer_from_confidence q results p r p' :
  answer_from q results p = (Ok r, p') -> confidence r = avg_sim results.
Proof.
  destruct openai_client as [client|] eqn:Hc.
  - rewrite (answer_from_client client) by exact Hc.
    destruct (client SYSTEM_MESSAGE (prompt_of q results)); [|discriminate].
    intros [= <- _]. reflexivity.
  - rewrite answer_from_no_client by exact Hc. intros [= <- _]. reflexivity.
Qed.


(** C9. The division of the mean in [answer_query] is Python's, which
    raises ZeroDivisionError on a zero divisor.  Behind [max(1, ..)] it
    returns the mean for every list of results, so the rest of
    [answer_query] never raises on its account: without a client it
    returns, with a client it returns whenever the completion call does,
    and the only exception that can leave it is the one raised by that
    call.  On zero results the confidence is 0. *)
Theorem answer_from_no_results (q : str) (p : process) :
  (forall results : list retrieval_result,
     truediv (sum (map similarity results))
             (inject_Z (Z.of_nat (Nat.max 1 (length results))))
     = Ok (avg_sim results))
  /\ (forall results : list retrieval_result,
        match openai_client with
        | None => exists r, answer_from q results p = (Ok r, p)
        | Some client =>
            match client SYSTEM_MESSAGE (prompt_of q results) with
            | Ok text => exists r p', answer_from q results p = (Ok r, p')
            | Raise e => exists p', answer_from q results p = (Raise e, p')
            end
        end)
  /\ match openai_client with
     | None => exists r, answer_from q [] p = (Ok r, p) /\ confidence r = 0%Q
     | Some client =>
         match client SYSTEM_MESSAGE (prompt_of q []) with
         | Ok text =>
             exists r p', answer_from q [] p = (Ok r, p') /\ confidence r = 0%Q
         | Raise e => exists p', answer_from q [] p = (Raise e, p')
         end
     end.
Proof.
  split; [|split].
  - intros results. apply truediv_guarded.
  - intros results. destruct openai_client as [client|] eqn:Hc.
    + rewrite (answer_from_client client) by exact Hc.
      destruct (client SYSTEM_MESSAGE (prompt_of q results)); eauto.
    + rewrite answer_from_no_client by exact Hc. eauto.
  - destruct openai_client as [client|] eqn:Hc.
    + rewrite (answer_from_client client) by exact Hc.
      destruct (client SYSTEM_MESSAGE (prompt_of q [])); eauto.
    + rewrite answer_from_no_client by exact Hc. eauto.
Qed.

End Answer.

Section Confidence.
Context `{SentenceModel}.
Import Rag.

Lemma retrieve_nonempty E Ms p q k results p' :
  indexed E Ms p -> retrieve q k p = (Ok results, p') -> results <> [].
Proof.
  intros Hidx Hret.
  destruct (retrieve_results E Ms p q k results p' Hidx Hret) as (Hk & _ & Hres).
  destruct (rmap_ok _ _ _ Hres) as [Hlen _].
  rewrite neighbours_length in Hlen by lia.
  intros ->. cbn in Hlen. lia.
Qed.

(** C7 (amended). The confidence that [answer_query] returns is the
    unweighted arithmetic mean of the similarities of the retrieved
    results; it is the same whatever completion model is configured and
    whatever text that model returns; and, when the cosine distances of
    the query to the rows of the index are in [0, 2], it lies in the
    range -1..1. *)
Theorem answer_query_confidence (C1 C2 : ChatModel) (E : list vec) (Ms : list meta)
    (p p1 : process) (q : str) (k : nat) (r1 : answer_response) :
  indexed E Ms p ->
  Forall (fun row => (0 <= cosine_distance (encode q) row <= 2)%Q) E ->
  answer_query (H0 := C1) q k p = (Ok r1, p1) ->
  exists results p',
    retrieve q k (add_call (CallAnswerQuery q k) p) = (Ok results, p')
    /\ (confidence r1 == mean (map similarity results))%Q
    /\ (- (1) <= confidence r1 <= 1)%Q
    /\ forall r2 p2, answer_query (H0 := C2) q k p = (Ok r2, p2) ->
         confidence r2 = confidence r1.
Proof.
  intros Hidx Hrange Hans. rewrite answer_query_run in Hans.
  destruct (retrieve q k (add_call (CallAnswerQuery q k) p)) as [[results|e] p'] eqn:Hret;
    [|discriminate].
  pose proof (indexed_add_call E Ms p (CallAnswerQuery q k) Hidx) as Hidx'.
  apply answer_from_confidence in Hans.
  exists results, p'. split; [reflexivity|]. rewrite Hans. split; [|split].
  - apply avg_sim_mean. exact (retrieve_nonempty E Ms _ q k results p' Hidx' Hret).
  - apply avg_sim_bounds.
    pose proof (retrieved_rows E Ms _ q k results p' Hidx' Hret) as Hrows.
    eapply Forall_impl; [exact Hrows|].
    intros r (i & row & Hrow & _ & Hsim).
    rewrite Forall_forall in Hrange.
    assert (Hd : (0 <= cosine_distance (encode q) row <= 2)%Q).
    { apply Hrange, list_elem_of_lookup. eauto. }
    rewrite Hsim. lra.
  - intros r2 p2 Hans2. rewrite answer_query_run, Hret in Hans2.
    apply answer_from_confidence in Hans2. exact Hans2.
Qed.

End Confidence.

(** ** app.py *)

Section Ask.
Context `{SentenceModel} `{Rag.ChatModel}.
Import Rag App.

Lemma lstrip_spaces (s : str) : forallb isspace s = true -> lstrip s = [].
Proof.
  induction s as [|c s IH]; cbn; [reflexivity|].
  intros Hs. apply andb_prop in Hs as [Hc Hs]. rewrite Hc. exact (IH Hs).
Qed.

Lemma strip_spaces (s : str) : forallb isspace s = true -> strip s = [].
Proof. intros Hs. unfold strip. rewrite lstrip_spaces by exact Hs. reflexivity. Qed.

(** C5. When the question of a request is missing, empty or made of
    white space only, [ask] answers 400 with the body
    [{"error": "empty question"}]; the process is left as it was, so
    neither [answer_query] nor [retrieve] nor the completion model was
    called. *)
Theorem ask_empty_question (data : gmap str json_value) (p : process) :
  (data !! lit "question" = None
   \/ exists s, data !! lit "question" = Some (JString s) /\ forallb isspace s = true) ->
  ask data p = (Ok (400, ErrorBody (lit "empty question")), p)
  /\ calls (snd (ask data p)) = calls p.
Proof.
  intros Hq.
  assert (Hask : ask data p = (Ok (400, ErrorBody (lit "empty question")), p)).
  { unfold ask. destruct Hq as [->|(s & -> & Hs)]; cbn [default from_option id].
    - reflexivity.
    - rewrite strip_spaces by exact Hs. reflexivity. }
  split; [exact Hask | rewrite Hask; reflexivity].
Qed.

End Ask.

(** ** scraper.py *)

Section Crawl.
Context `{Web}.
Import Scraper.

(** The state after [n] passes through the body of the loop. *)
Fixpoint after (n : nat) (start_url : str) (s : crawl) : crawl :=
  match n with
  | 0 => s
  | S n' => after n' start_url (iteration start_url s)
  end.

Lemma running_false max_pages s :
  running max_pages s = false <-> to_visit s = [] \/ max_pages <= size (visited s).
Proof.
  unfold running. destruct (to_visit s) as [|u r].
  - split; [left; reflexivity | reflexivity].
  - rewrite bool_decide_eq_false. split.
    + intros Hn. right. lia.
    + intros [Hnil|Hle]; [discriminate | lia].
Qed.

Lemma enqueue_cons (seen : gset (list N)) (l : list N) (links frontier : list (list N)) :
  enqueue seen frontier (l :: links)
  = enqueue seen (if decide ((l ∉ seen) ∧ (l ∉ frontier)) then frontier ++ [l]
                  else frontier) links.
Proof. reflexivity. Qed.

Lemma enqueue_adds (seen : gset (list N)) (links frontier : list (list N)) :
  exists added,
    enqueue seen frontier links = frontier ++ added
    /\ NoDup added
    /\ forall l, l ∈ added -> (l ∉ seen) /\ (l ∉ frontier) /\ (l ∈ links).
Proof.
  revert frontier. induction links as [|l links IH]; intros frontier.
  - exists []. cbn. rewrite app_nil_r. split; [reflexivity|].
    split; [constructor|]. intros l Hl. inversion Hl.
  - rewrite enqueue_cons.
    destruct (decide ((l ∉ seen) ∧ (l ∉ frontier))) as [[Hs Hf]|Hno].
    + destruct (IH (frontier ++ [l])) as (added & -> & Hnd & Hadded).
      exists (l :: added). rewrite <- app_assoc. split; [reflexivity|]. split.
      * constructor; [|exact Hnd]. intros Hin.
        destruct (Hadded l Hin) as (_ & Hnot & _). apply Hnot. set_solver.
      * intros x Hx. apply elem_of_cons in Hx as [->|Hx].
        -- repeat split; [assumption.. | set_solver].
        -- destruct (Hadded x Hx) as (Hxs & Hxf & Hxl).
           repeat split; [assumption | set_solver | set_solver].
    + destruct (IH frontier) as (added & -> & Hnd & Hadded).
      exists added. split; [reflexivity|]. split; [exact Hnd|].
      intros x Hx. destruct (Hadded x Hx) as (Hxs & Hxf & Hxl).
      repeat split; [assumption.. | set_solver].
Qed.

(** A pass that finds the popped URL already visited: nothing is fetched. *)
Lemma iteration_skip start_url s url rest :
  to_visit s = url :: rest -> url ∈ visited s ->
  iteration start_url s
  = {| to_visit := rest; visited := visited s; docs := docs s;
       outside := outside s; fetched := fetched s |}.
Proof.
  intros Hto Hin. unfold iteration. rewrite Hto.
  destruct (decide (url ∈ visited s)); [reflexivity | contradiction].
Qed.

(** A pass that fetches: the URL joins the visited set, and the frontier
    receives only URLs that are neither visited (the popped one
    included) nor already waiting. *)
Lemma iteration_fetch start_url s url rest :
  to_visit s = url :: rest -> url ∉ visited s ->
  exists added,
    to_visit (iteration start_url s) = rest ++ added
    /\ visited (iteration start_url s) = visited s ∪ {[url]}
    /\ fetched (iteration start_url s) = fetched s ++ [url]
    /\ NoDup added
    /\ forall l, l ∈ added -> (l ∉ visited s ∪ {[url]}) /\ (l ∉ rest).
Proof.
  intros Hto Hnot. unfold iteration. rewrite Hto.
  destruct (decide (url ∈ visited s)); [contradiction|].
  assert (Hnone : exists added : list (list N),
             rest = rest ++ added /\ NoDup added
             /\ forall l, l ∈ added -> (l ∉ visited s ∪ {[url]}) /\ (l ∉ rest)).
  { exists []. rewrite app_nil_r. split; [reflexivity|]. split; [constructor|].
    intros l Hl. inversion Hl. }
  destruct (fetch url 3 (outside s)) as [[page|e] w]; cbn.
  - destruct (get_links page start_url) as [links|e].
    + destruct (enqueue_adds (visited s ∪ {[url]}) links rest)
        as (added & -> & Hnd & Hadded).
      exists added. repeat split; try assumption; apply Hadded; assumption.
    + destruct Hnone as (added & Hr & Hnd & Hadded). exists added.
      repeat split; try assumption; apply Hadded; assumption.
  - destruct Hnone as (added & Hr & Hnd & Hadded). exists added.
    repeat split; try assumption; apply Hadded; assumption.
Qed.

Lemma iteration_progress start_url s :
  to_visit s <> [] ->
  size (visited (iteration start_url s)) = S (size (visited s))
  \/ (visited (iteration start_url s) = visited s
      /\ length (to_visit (iteration start_url s)) < length (to_visit s)).
Proof.
  intros Hne. destruct (to_visit s) as [|url rest] eqn:Hto; [contradiction|].
  destruct (decide (url ∈ visited s)) as [Hin|Hnot].
  - right. rewrite (iteration_skip start_url s url rest Hto Hin). cbn. split; [reflexivity|lia].
  - left. destruct (iteration_fetch start_url s url rest Hto Hnot) as (added & _ & -> & _).
    rewrite size_union by set_solver. rewrite size_singleton. lia.
Qed.

Lemma loop_ends start_url max_pages (b : nat) :
  forall f s, max_pages - size (visited s) <= b -> length (to_visit s) <= f ->
  exists n, (forall m, m < n -> running max_pages (after m start_url s) = true)
            /\ running max_pages (after n start_url s) = false.
Proof.
  induction b as [|b IHb]; intros f; induction f as [|f IHf]; intros s Hb Hf.
  - exists 0. cbn [after]. split; [intros m Hm; lia|]. apply running_false. right. lia.
  - exists 0. cbn [after]. split; [intros m Hm; lia|]. apply running_false. right. lia.
  - exists 0. cbn [after]. split; [intros m Hm; lia|]. apply running_false. left.
    destruct (to_visit s); [reflexivity | cbn in Hf; lia].
  - destruct (running max_pages s) eqn:Hrun.
    + assert (Hne : to_visit s <> []).
      { intros Hnil. unfold running in Hrun. rewrite Hnil in Hrun. discriminate. }
      assert (Hnext : exists n,
                (forall m, m < n ->
                   running max_pages (after m start_url (iteration start_url s)) = true)
                /\ running max_pages (after n start_url (iteration start_url s)) = false).
      { destruct (iteration_progress start_url s Hne) as [Hgrow|[Hsame Hshrink]].
        - apply (IHb (length (to_visit (iteration start_url s)))); lia.
        - apply IHf; [rewrite Hsame; lia | lia]. }
      destruct Hnext as (n & Hbefore & Hend).
      exists (S n). split; [|exact Hend].
      intros [|m] Hm; [exact Hrun | apply Hbefore; lia].
    + exists 0. cbn [after]. split; [intros m Hm; lia | exact Hrun].
Qed.

Lemma crawl_loop_after start_url max_pages n :
  forall s fuel,
    (forall m, m < n -> running max_pages (after m start_url s) = true) ->
    running max_pages (after n start_url s) = false ->
    n <= fuel ->
    crawl_loop fuel start_url max_pages s = Some (after n start_url s).
Proof.
  induction n as [|n IH]; intros s fuel Hbefore Hend Hfuel.
  - cbn in Hend. destruct fuel; cbn; rewrite Hend; reflexivity.
  - destruct fuel as [|fuel]; [lia|].
    pose proof (Hbefore 0 ltac:(lia)) as Hfirst. cbn [after] in Hfirst.
    cbn [crawl_loop]. rewrite Hfirst. cbn [after].
    apply IH; [|exact Hend|lia].
    intros m Hm. apply (Hbefore (S m)). lia.
Qed.

(** C8. From the start of [scrape], for every seed URL, page budget and
    web, the loop stops after some number [n] of passes: its condition
    holds before each of them and fails after the last, which is when
    the frontier is empty or the visited set has reached the budget.
    Every pass either adds one URL to the visited set or leaves the set
    alone and shortens the frontier, and what a pass appends to the
    frontier are distinct URLs that are neither visited nor waiting. *)
Theorem crawl_terminates (start_url : str) (max_pages : nat) (w : web) :
  (exists n final,
     final = after n start_url (start start_url w)
     /\ (forall m, m < n ->
           running max_pages (after m start_url (start start_url w)) = true)
     /\ (to_visit final = [] \/ max_pages <= size (visited final))
     /\ forall fuel, n <= fuel ->
          crawl_loop fuel start_url max_pages (start start_url w) = Some final)
  /\ (forall s, to_visit s <> [] ->
        size (visited (iteration start_url s)) = S (size (visited s))
        \/ (visited (iteration start_url s) = visited s
            /\ length (to_visit (iteration start_url s)) < length (to_visit s)))
  /\ (forall s, exists added,
        to_visit (iteration start_url s) = tail (to_visit s) ++ added
        /\ NoDup added
        /\ forall l, l ∈ added ->
             (l ∉ visited (iteration start_url s)) /\ (l ∉ tail (to_visit s))).
Proof.
  split; [|split].
  - destruct (loop_ends start_url max_pages
                (max_pages - size (visited (start start_url w)))
                (length (to_visit (start start_url w))) (start start_url w)
                ltac:(lia) ltac:(lia)) as (n & Hbefore & Hend).
    exists n, (after n start_url (start start_url w)).
    split; [reflexivity|]. split; [exact Hbefore|].
    split; [apply running_false, Hend|].
    intros fuel Hfuel. apply crawl_loop_after; assumption.
  - apply iteration_progress.
  - intros s. destruct (to_visit s) as [|url rest] eqn:Hto.
    + assert (Hstay : iteration start_url s = s)
        by (unfold iteration; rewrite Hto; reflexivity).
      exists []. rewrite Hstay, Hto. cbn.
      split; [reflexivity|]. split; [constructor|]. intros l Hl. inversion Hl.
    + destruct (decide (url ∈ visited s)) as [Hin|Hnot].
      * exists []. rewrite (iteration_skip start_url s url rest Hto Hin). cbn.
        rewrite app_nil_r. split; [reflexivity|]. split; [constructor|].
        intros l Hl. inversion Hl.
      * destruct (iteration_fetch start_url s url rest Hto Hnot)
          as (added & Ht & Hv & _ & Hnd & Hadded).
        exists added. cbn [tail]. rewrite Hv. repeat split; try assumption;
          apply Hadded; assumption.
Qed.

End Crawl.

Section FetchOnce.
Context `{Web}.
Import Scraper.

(** What the loop keeps true: the frontier holds distinct URLs, none of
    them visited; the fetched URLs are distinct and all visited. *)
Record crawl_invariant (s : crawl) : Prop := {
  frontier_distinct : NoDup (to_visit s);
  frontier_unvisited : forall u, u ∈ to_visit s -> u ∉ visited s;
  fetched_distinct : NoDup (fetched s);
  fetched_visited : forall u, u ∈ fetched s -> u ∈ visited s
}.

Lemma invariant_start start_url w : crawl_invariant (start start_url w).
Proof.
  constructor; cbn.
  - apply NoDup_singleton.
  - intros u _. set_solver.
  - constructor.
  - intros u Hu. inversion Hu.
Qed.

Lemma invariant_iteration start_url s :
  crawl_invariant s -> crawl_invariant (iteration start_url s).
Proof.
  intros [Hnd Hun Hfd Hfv].
  destruct (to_visit s) as [|url rest] eqn:Hto.
  - unfold iteration. rewrite Hto. constructor; rewrite ?Hto; assumption.
  - apply NoDup_cons in Hnd as [Hurl Hrest].
    assert (Hnot : url ∉ visited s) by (apply Hun; set_solver).
    destruct (iteration_fetch start_url s url rest Hto Hnot)
      as (added & Ht & Hv & Hf & Hadd & Hadded).
    constructor; rewrite ?Ht, ?Hv, ?Hf.
    + apply NoDup_app. split; [exact Hrest|]. split; [|exact Hadd].
      intros x Hx Hx'. destruct (Hadded x Hx') as [_ Hxr]. contradiction.
    + intros u Hu. apply elem_of_app in Hu as [Hu|Hu].
      * assert (u ∉ visited s) by (apply Hun; set_solver).
        assert (u <> url) by (intros ->; contradiction).
        set_solver.
      * apply Hadded, Hu.
    + apply NoDup_app. split; [exact Hfd|]. split; [|apply NoDup_singleton].
      intros x Hx Hx'. apply list_elem_of_singleton in Hx' as ->.
      apply Hnot, Hfv, Hx.
    + intros u Hu. apply elem_of_app in Hu as [Hu|Hu].
      * apply Hfv in Hu. set_solver.
      * apply list_elem_of_singleton in Hu as ->. set_solver.
Qed.

Lemma invariant_loop start_url max_pages fuel :
  forall s final,
    crawl_invariant s ->
    crawl_loop fuel start_url max_pages s = Some final ->
    crawl_invariant final.
Proof.
  induction fuel as [|fuel IH]; intros s final Hinv; cbn [crawl_loop];
    destruct (running max_pages s).
  - discriminate.
  - intros [= <-]. exact Hinv.
  - apply IH, invariant_iteration, Hinv.
  - intros [= <-]. exact Hinv.
Qed.

(** C10. In a run of the loop of [scrape] no URL is given to [fetch]
    twice, and every fetched URL is in the visited set.  In any pass, a
    popped URL that is already visited is dropped without a fetch; one
    that is not is fetched once and put in the visited set, and the
    links appended to the frontier afterwards are distinct, not visited
    (so not the popped URL either) and not already waiting. *)
Theorem crawl_fetches_once (start_url : str) (max_pages : nat) (w : web)
    (fuel : nat) (final : crawl) :
  crawl_loop fuel start_url max_pages (start start_url w) = Some final ->
  NoDup (fetched final)
  /\ (forall u, u ∈ fetched final -> u ∈ visited final)
  /\ forall s url rest, to_visit s = url :: rest ->
       (url ∈ visited s ->
          iteration start_url s
          = {| to_visit := rest; visited := visited s; docs := docs s;
               outside := outside s; fetched := fetched s |})
       /\ (url ∉ visited s ->
             exists added,
               to_visit (iteration start_url s) = rest ++ added
               /\ visited (iteration start_url s) = visited s ∪ {[url]}
               /\ fetched (iteration start_url s) = fetched s ++ [url]
               /\ NoDup added
               /\ forall l, l ∈ added -> (l ∉ visited s ∪ {[url]}) /\ (l ∉ rest)).
Proof.
  intros Hloop.
  pose proof (invariant_loop start_url max_pages fuel _ final
                (invariant_start start_url w) Hloop) as [_ _ Hfd Hfv].
  split; [exact Hfd|]. split; [exact Hfv|].
  intros s url rest Hto. split.
  - apply iteration_skip, Hto.
  - apply iteration_fetch, Hto.
Qed.

End FetchOnce.

(** * Further properties *)

(** ** ingest.py: counts, identifiers and excerpts *)

Section IngestMore.
Context `{SentenceModel}.

(** The number of chunks of a document: its length over 500, rounded up. *)
Definition chunk_count (d : doc) : nat := (length (doc_content d) + 499) / 500.

Lemma chunks_of_length (t : str) (L : nat) :
  length (chunks_of t L) = (length t + L - 1) / L.
Proof. unfold chunks_of. rewrite length_map, length_seq. reflexivity. Qed.

Lemma chunks_of_lookup (t : str) (L k : nat) (c : str) :
  chunks_of t L !! k = Some c ->
  k < (length t + L - 1) / L /\ c = take L (drop (k * L) t).
Proof.
  unfold chunks_of. rewrite list_lookup_fmap. intros Hc.
  destruct (seq 0 ((length t + L - 1) / L) !! k) as [j|] eqn:Hj; [|discriminate].
  apply lookup_seq in Hj as [-> Hk]. cbn in Hc. injection Hc as <-.
  split; [exact Hk|]. unfold slice. f_equal. lia.
Qed.

(** X1. [chunk_text] with a maximum length of 0 raises [ValueError];
    with a positive maximum length [L] it returns the length of the text
    over [L], rounded up, many chunks, none of them empty: no chunk at
    all for the empty text. *)
Theorem chunk_text_count (text : str) (L : nat) :
  match L with
  | 0 => Ingest.chunk_text text L = Raise ValueError
  | S _ =>
      exists chunks,
        Ingest.chunk_text text L = Ok chunks
        /\ length chunks = (length text + L - 1) / L
        /\ Forall (fun c => c <> []) chunks
        /\ (text = [] <-> chunks = [])
  end.
Proof.
  destruct L as [|l]; [reflexivity|].
  assert (HL : 0 < S l) by lia.
  exists (chunks_of text (S l)). split; [apply chunk_text_pos, HL|].
  split; [apply chunks_of_length|]. split; [apply chunks_of_nonempty, HL|].
  split.
  - intros ->. apply length_zero_iff_nil. rewrite chunks_of_length. cbn [length].
    apply Nat.div_small. lia.
  - intros Hnil. apply (f_equal length) in Hnil. rewrite chunks_of_length in Hnil.
    cbn [length] in Hnil. apply length_zero_iff_nil.
    pose proof (ceil_covers (length text) (S l) HL) as Hc.
    rewrite Hnil in Hc. lia.
Qed.

(** What [collect] gathers for the documents [ds], numbered from [idx0]:
    as many entries as the documents have chunks, each naming a document
    with content and one of its chunks, cut at the multiples of 500. *)
Lemma collect_entries idx0 ds :
  exists pairs,
    Ingest.collect idx0 ds = Ok pairs
    /\ length pairs = sum_list (map chunk_count ds)
    /\ forall p, p ∈ pairs ->
         exists k d,
           ds !! k = Some d
           /\ doc_id (snd p) = idx0 + k
           /\ doc_content d <> []
           /\ chunk_id (snd p) < chunk_count d
           /\ fst p = take 500 (drop (chunk_id (snd p) * 500) (doc_content d))
           /\ text_excerpt (snd p) = take 400 (fst p)
           /\ url (snd p) = doc_url d /\ title (snd p) = doc_title d.
Proof.
  revert idx0. induction ds as [|d ds IH]; intros idx0.
  - exists []. split; [reflexivity|]. split; [reflexivity|]. intros p Hp. inversion Hp.
  - destruct (IH (S idx0)) as (later & Hlater & Hlen & Hall).
    assert (Hshift : forall p, p ∈ later ->
              exists k d0,
                (d :: ds) !! k = Some d0
                /\ doc_id (snd p) = idx0 + k
                /\ doc_content d0 <> []
                /\ chunk_id (snd p) < chunk_count d0
                /\ fst p = take 500 (drop (chunk_id (snd p) * 500) (doc_content d0))
                /\ text_excerpt (snd p) = take 400 (fst p)
                /\ url (snd p) = doc_url d0 /\ title (snd p) = doc_title d0).
    { intros p Hp. destruct (Hall p Hp) as (k & d0 & Hk & Hid & Hrest).
      exists (S k), d0. split; [exact Hk|]. split; [lia | exact Hrest]. }
    cbn [Ingest.collect]. destruct (doc_content d) as [|c0 content] eqn:Hcontent.
    + exists later. split; [exact Hlater|]. split.
      * change (sum_list (map chunk_count (d :: ds)))
          with (chunk_count d + sum_list (map chunk_count ds)).
        change (chunk_count d) with ((length (doc_content d) + 499) / 500).
        rewrite Hcontent. cbn [length].
        rewrite Hlen, (Nat.div_small (0 + 499) 500) by lia. reflexivity.
      * exact Hshift.
    + assert (HL : 0 < Ingest.CHUNK_SIZE) by (unfold Ingest.CHUNK_SIZE; lia).
      rewrite (chunk_text_pos (c0 :: content) Ingest.CHUNK_SIZE HL), Hlater.
      cbn [rbind]. eexists. split; [reflexivity|]. split.
      * rewrite length_app, chunk_metas_length, chunks_of_length, Hlen.
        change (sum_list (map chunk_count (d :: ds)))
          with (chunk_count d + sum_list (map chunk_count ds)).
        change (chunk_count d) with ((length (doc_content d) + 499) / 500).
        rewrite Hcontent. unfold Ingest.CHUNK_SIZE. f_equal. f_equal. lia.
      * intros p Hp. apply elem_of_app in Hp as [Hp|Hp]; [|apply Hshift, Hp].
        apply list_elem_of_lookup in Hp as [i Hi].
        rewrite chunk_metas_lookup in Hi.
        destruct (chunks_of (c0 :: content) Ingest.CHUNK_SIZE !! i) as [chunk|] eqn:Hc;
          [|discriminate].
        injection Hi as <-.
        apply chunks_of_lookup in Hc as [Hi Hchunk]. unfold Ingest.CHUNK_SIZE in *.
        exists 0, d. cbn [fst snd doc_id chunk_id text_excerpt url title meta_of lookup].
        split; [reflexivity|]. split; [lia|]. rewrite Hcontent.
        split; [discriminate|]. split.
        { unfold chunk_count. rewrite Hcontent.
          replace (length (c0 :: content) + 499) with (length (c0 :: content) + 500 - 1)
            by lia. exact Hi. }
        split; [exact Hchunk|]. repeat split; reflexivity.
Qed.

(** X2. [build_index] writes as many rows as the documents have chunks
    together, a document of [n] characters counting for [n / 500]
    rounded up (none when it has no content).  The [doc_id] of an entry
    is the position of its document in [docs.json], documents without
    content included in the count, and its [chunk_id] is below the
    number of chunks of that document. *)
Theorem build_index_chunk_count (fs : files) (ds : list doc) :
  docs_json fs = Some ds ->
  exists E Ms,
    fst (Ingest.build_index fs) = Ok (E, Ms)
    /\ length E = sum_list (map chunk_count ds)
    /\ forall m, m ∈ Ms ->
         exists d, ds !! doc_id m = Some d
                   /\ doc_content d <> []
                   /\ chunk_id m < chunk_count d.
Proof.
  intros Hdocs. destruct (collect_entries 0 ds) as (pairs & Hpairs & Hlen & Hall).
  exists (map encode (map fst pairs)), (map snd pairs).
  unfold Ingest.build_index. rewrite Hdocs, Hpairs. cbn [fst].
  split; [reflexivity|]. split; [rewrite !length_map; exact Hlen|].
  intros m Hm. apply list_elem_of_fmap in Hm as (p & -> & Hp).
  destruct (Hall p Hp) as (k & d & Hk & Hid & Hne & Hcid & _).
  exists d. rewrite Hid. cbn. repeat split; assumption.
Qed.

(** X3. The excerpt of an entry is the 400 characters of its document
    that start at offset [500 * chunk_id] (fewer at the end of the
    document): the characters at offsets 400 to 499 of a chunk are in no
    excerpt. *)
Theorem build_index_excerpts (fs : files) (ds : list doc) :
  docs_json fs = Some ds ->
  exists E Ms,
    fst (Ingest.build_index fs) = Ok (E, Ms)
    /\ forall m, m ∈ Ms ->
         exists d, ds !! doc_id m = Some d
                   /\ text_excerpt m = take 400 (drop (chunk_id m * 500) (doc_content d))
                   /\ length (text_excerpt m)
                      = Nat.min 400 (length (doc_content d) - chunk_id m * 500).
Proof.
  intros Hdocs. destruct (collect_entries 0 ds) as (pairs & Hpairs & Hlen & Hall).
  exists (map encode (map fst pairs)), (map snd pairs).
  unfold Ingest.build_index. rewrite Hdocs, Hpairs. cbn [fst].
  split; [reflexivity|].
  intros m Hm. apply list_elem_of_fmap in Hm as (p & -> & Hp).
  destruct (Hall p Hp) as (k & d & Hk & Hid & _ & _ & Hchunk & Hex & _).
  exists d. rewrite Hid. cbn [Nat.add].
  assert (Htext : text_excerpt (snd p)
                  = take 400 (drop (chunk_id (snd p) * 500) (doc_content d))).
  { rewrite Hex, Hchunk, take_take. f_equal. }
  split; [exact Hk|]. split; [exact Htext|].
  rewrite Htext, length_take, length_drop. reflexivity.
Qed.

(** X4. [build_index] reads [docs.json] only and leaves it as it is: the
    embeddings and metadata that were on disk have no influence on the
    result, and running it again on its own output changes nothing.
    Without [docs.json] it raises [FileNotFoundError] and writes
    nothing. *)
Theorem build_index_rerun (fs : files) :
  docs_json (snd (Ingest.build_index fs)) = docs_json fs
  /\ Ingest.build_index (snd (Ingest.build_index fs)) = Ingest.build_index fs
  /\ (forall e m,
        fst (Ingest.build_index
               {| docs_json := docs_json fs; embeddings_npy := e; metadata_json := m |})
        = fst (Ingest.build_index fs))
  /\ (docs_json fs = None -> Ingest.build_index fs = (Raise FileNotFoundError, fs)).
Proof.
  destruct fs as [[ds|] e0 m0]; unfold Ingest.build_index; cbn [docs_json].
  - destruct (Ingest.collect 0 ds) as [pairs|e] eqn:Hpairs;
      cbn [fst snd docs_json]; rewrite ?Hpairs;
      repeat split; try reflexivity; discriminate.
  - repeat split; reflexivity.
Qed.

End IngestMore.

(** ** rag.py: which rows are returned *)

Section Nearest.
Context `{SentenceModel}.
Import Rag.

Lemma insert_by_distance_perm x l : insert_by_distance x l ≡ₚ x :: l.
Proof.
  induction l as [|y l IH]; cbn; [reflexivity|].
  destruct (Qle_bool (fst x) (fst y)); [reflexivity|].
  rewrite IH. apply Permutation_swap.
Qed.

Lemma sort_by_distance_perm l : sort_by_distance l ≡ₚ l.
Proof.
  induction l as [|x l IH]; cbn; [reflexivity|].
  rewrite insert_by_distance_perm. unfold sort_by_distance in IH. rewrite IH.
  reflexivity.
Qed.

Lemma imap_indexes (X : list vec) (q : vec) (n : nat) :
  map snd (imap (fun i row => (cosine_distance q row, n + i)) X) = seq n (length X).
Proof.
  revert n. induction X as [|row X IH]; intros n; [reflexivity|].
  rewrite imap_cons. cbn [map snd length seq]. rewrite Nat.add_0_r. f_equal.
  rewrite <- (IH (S n)). f_equal. apply imap_ext. intros i x _. cbn. f_equal. lia.
Qed.

(** The rows in order of distance: every row once. *)
Definition ranking (X : list vec) (q : vec) : list (Q * nat) :=
  sort_by_distance (imap (fun i row => (cosine_distance q row, i)) X).

Lemma ranking_indexes X q : map snd (ranking X q) ≡ₚ seq 0 (length X).
Proof.
  unfold ranking. rewrite sort_by_distance_perm.
  rewrite <- (imap_indexes X q 0). reflexivity.
Qed.

Lemma neighbours_distinct X q k : NoDup (map snd (neighbours X q k)).
Proof.
  unfold neighbours. fold (ranking X q).
  assert (Hnd : NoDup (map snd (ranking X q))).
  { rewrite ranking_indexes. apply NoDup_seq. }
  rewrite <- (take_drop k (ranking X q)), map_app in Hnd.
  apply NoDup_app in Hnd as [Hnd _]. exact Hnd.
Qed.

(** A row that is not among the neighbours is at least as far from the
    query as each of them. *)
Lemma neighbours_nearest X q k j row :
  X !! j = Some row -> j ∉ map snd (neighbours X q k) ->
  Forall (fun f => (fst f <= cosine_distance q row)%Q) (neighbours X q k).
Proof.
  intros Hrow Hout. unfold neighbours in *. fold (ranking X q) in *.
  assert (Hin : (cosine_distance q row, j) ∈ ranking X q).
  { unfold ranking. rewrite sort_by_distance_perm.
    apply (elem_of_lookup_imap_2 (fun i r => (cosine_distance q r, i))), Hrow. }
  rewrite <- (take_drop k (ranking X q)) in Hin.
  apply elem_of_app in Hin as [Hin|Hin].
  { exfalso. apply Hout. apply list_elem_of_fmap. exists (cosine_distance q row, j).
    split; [reflexivity | exact Hin]. }
  pose proof (sort_by_distance_sorted
                (imap (fun i r => (cosine_distance q r, i)) X)) as Hsorted.
  fold (ranking X q) in Hsorted.
  rewrite <- (take_drop k (ranking X q)) in Hsorted.
  apply Forall_forall. intros f Hf.
  exact (StronglySorted_app_1_elem_of _ _ _ f _ Hsorted Hf Hin).
Qed.

Lemma rmap_Forall2 {A B} (f : A -> result B) (l : list A) (bs : list B) :
  rmap f l = Ok bs -> Forall2 (fun a b => f a = Ok b) l bs.
Proof.
  revert bs. induction l as [|a l IH]; intros bs; cbn.
  - intros [= <-]. constructor.
  - destruct (f a) as [b|] eqn:Hb; [|discriminate]. cbn.
    destruct (rmap f l) as [bs'|]; [|discriminate]. cbn.
    intros [= <-]. constructor; [exact Hb | apply IH; reflexivity].
Qed.

Lemma Forall2_with {A B} (P : A -> B -> Prop) (Q : A -> Prop) (l : list A) (k : list B) :
  Forall2 P l k -> Forall Q l -> Forall2 (fun a b => P a b /\ Q a) l k.
Proof.
  induction 1 as [|a b l k Hab Hlk IH]; intros Hq; [constructor|].
  apply Forall_cons in Hq as [Ha Hl]. constructor; [split; assumption | apply IH, Hl].
Qed.

(** X5. When [retrieve] returns, its results are those of [top_k]
    different rows of the index, each with the metadata at the position
    of its row and one minus its distance as similarity; and every row
    of the index that is not among them is at most as similar to the
    query as each result. *)
Theorem retrieve_nearest (E : list vec) (Ms : list meta) (p p' : process) (q : str)
    (k : nat) (results : list retrieval_result) :
  indexed E Ms p -> retrieve q k p = (Ok results, p') ->
  exists idxs : list nat,
    length idxs = k
    /\ NoDup idxs
    /\ Forall2 (fun i r => exists row,
                  E !! i = Some row
                  /\ Ms !! i = Some (r_meta r)
                  /\ similarity r = (1 - cosine_distance (encode q) row)%Q)
               idxs results
    /\ forall j row, E !! j = Some row -> j ∉ idxs ->
         Forall (fun r => (1 - cosine_distance (encode q) row <= similarity r)%Q) results.
Proof.
  intros Hidx Hret.
  destruct (retrieve_results E Ms p q k results p' Hidx Hret) as (Hk & _ & Hres).
  exists (map snd (neighbours E (encode q) k)).
  split; [rewrite length_map; apply neighbours_length; lia|].
  split; [apply neighbours_distinct|].
  apply rmap_Forall2 in Hres.
  pose proof (neighbours_rows E (encode q) k) as Hrows.
  split.
  - apply Forall2_fmap_l.
    eapply Forall2_impl; [exact (Forall2_with _ _ _ _ Hres Hrows) |]; cbn.
    intros [d idx] r [Hr (row & Hrow & Hd)]. cbn in *.
    unfold result_of in Hr. cbn in Hr.
    destruct (Ms !! idx) as [m|]; [|discriminate]. injection Hr as <-.
    exists row. cbn. subst d. repeat split; assumption.
  - intros j row Hrow Hout.
    pose proof (neighbours_nearest E (encode q) k j row Hrow Hout) as Hnear.
    apply Forall_forall. intros r Hr.
    apply list_elem_of_lookup in Hr as [i Hi].
    destruct (Forall2_lookup_r _ _ _ _ _ Hres Hi) as (f & Hf & Hfr).
    rewrite Forall_forall in Hnear.
    assert (Hle : (fst f <= cosine_distance (encode q) row)%Q).
    { apply Hnear, list_elem_of_lookup. eauto. }
    unfold result_of in Hfr. destruct (Ms !! snd f); [|discriminate].
    injection Hfr as <-. cbn. lra.
Qed.

End Nearest.

(** ** rag.py: what stays in the process *)

Section Globals.
Context `{SentenceModel}.
Import Rag.

(** Nothing loaded yet. *)
Definition fresh (p : process) : Prop :=
  embeddings p = None /\ metas p = None /\ nn p = None.

Lemma retrieve_loaded E Ms p q k :
  loaded E Ms p ->
  retrieve q k p
  = (rbind (kneighbors (fitted E) (encode q) k) (rmap (result_of Ms)),
     warm E Ms p (CallRetrieve q k)).
Proof.
  intros (HE & HMs & Hnn). unfold retrieve. run. rewrite Hnn. run.
  assert (Hp : add_call (CallRetrieve q k) p = warm E Ms p (CallRetrieve q k)).
  { unfold warm, add_call. rewrite HE, HMs, Hnn. reflexivity. }
  rewrite Hp.
  destruct (kneighbors (fitted E) (encode q) k) as [found|e]; cbn [rbind].
  - apply for_each_metas. reflexivity.
  - reflexivity.
Qed.

Lemma loaded_set_disk E Ms p fs : loaded E Ms p -> loaded E Ms (set_disk fs p).
Proof. intros L. exact L. Qed.

(** X6. After a retrieval that returned, the index is held in the
    globals of the process, and later retrievals no longer look at the
    disk: whatever is written to the files under [data/] afterwards,
    they return what they would have returned without it. *)
Theorem retrieve_uses_cache (E : list vec) (Ms : list meta) (p p1 : process) (q : str)
    (k : nat) (results : list retrieval_result) :
  indexed E Ms p -> retrieve q k p = (Ok results, p1) ->
  loaded E Ms p1
  /\ forall fs' q' k',
       fst (retrieve q' k' (set_disk fs' p1)) = fst (retrieve q' k' p1).
Proof.
  intros Hidx Hret.
  destruct (retrieve_results E Ms p q k results p1 Hidx Hret) as (_ & -> & _).
  assert (HL : loaded E Ms (warm E Ms p (CallRetrieve q k))) by (repeat split).
  split; [exact HL|]. intros fs' q' k'.
  rewrite (retrieve_loaded E Ms _ q' k' HL).
  rewrite (retrieve_loaded E Ms _ q' k' (loaded_set_disk E Ms _ fs' HL)).
  reflexivity.
Qed.

Lemma retrieve_unfitted p q k n :
  nn p = Some n -> fit_X n = None ->
  retrieve q k p = (Raise NotFittedError, add_call (CallRetrieve q k) p).
Proof.
  intros Hnn Hfit. unfold retrieve. run. rewrite Hnn. run.
  unfold kneighbors. rewrite Hfit. reflexivity.
Qed.

(** X7. When the first retrieval of a process finds an empty embedding
    matrix on disk, it raises [ValueError] and leaves the unfitted
    search object in the global [nn]; from then on every retrieval of
    that process raises [NotFittedError] and keeps [nn] as it is,
    whatever the disk and the other globals hold by then. *)
Theorem retrieve_after_failed_fit (Ms : list meta) (p : process) (q : str) (k : nat) :
  on_disk [] Ms p ->
  exists p1,
    retrieve q k p = (Raise ValueError, p1)
    /\ forall p2, nn p2 = nn p1 ->
         forall q' k',
           fst (retrieve q' k' p2) = Raise NotFittedError
           /\ nn (snd (retrieve q' k' p2)) = nn p2.
Proof.
  intros (HE & HMs & Hnn & HfE & HfM).
  unfold retrieve at 1. run. rewrite Hnn. unfold load_index. run.
  rewrite HE. run. rewrite HfE. run. rewrite HMs. run. rewrite HfM. run.
  cbn [default from_option id fit]. run.
  eexists. split; [reflexivity|]. cbn [nn set_nn].
  intros p2 Hp2 q' k'.
  rewrite (retrieve_unfitted p2 q' k' _ Hp2 eq_refl). cbn [fst snd nn add_call].
  split; reflexivity.
Qed.

(** X8. When the first retrieval of a process finds the embeddings but no
    metadata file, it raises [FileNotFoundError] with the embeddings
    already in the global.  If then both files are replaced, the next
    retrieval searches the old embeddings and reads the answers off the
    new metadata. *)
Theorem retrieve_after_missing_metadata (E : list vec) (p : process) (q : str) (k : nat) :
  fresh p -> embeddings_npy (disk p) = Some E -> metadata_json (disk p) = None ->
  E <> [] ->
  exists p1,
    retrieve q k p = (Raise FileNotFoundError, p1)
    /\ forall fs' E' Ms' q' k',
         embeddings_npy fs' = Some E' -> metadata_json fs' = Some Ms' ->
         fst (retrieve q' k' (set_disk fs' p1))
         = rbind (kneighbors (fitted E) (encode q') k') (rmap (result_of Ms')).
Proof.
  intros (HE & HMs & Hnn) HfE HfM Hne.
  unfold retrieve at 1. run. rewrite Hnn. unfold load_index. run.
  rewrite HE. run. rewrite HfE. run. rewrite HMs. run. rewrite HfM. run.
  eexists. split; [reflexivity|].
  intros fs' E' Ms' q' k' HfE' HfM'.
  unfold retrieve. run. rewrite Hnn. unfold load_index. run.
  rewrite HMs. run. rewrite HfM'. run.
  destruct E as [|row E]; [contradiction|].
  cbn [default from_option id fit n_neighbors]. run.
  fold (fitted (row :: E)).
  destruct (kneighbors (fitted (row :: E)) (encode q') k') as [found|e]; cbn [rbind fst].
  - rewrite (for_each_metas Ms') by reflexivity. reflexivity.
  - reflexivity.
Qed.

(** X9. A retrieval in a process that has loaded nothing, before any
    embeddings file exists, raises [FileNotFoundError] and loads
    nothing: the process is as fresh as before, so that once an index
    is on disk the next retrieval loads it. *)
Theorem retrieve_before_ingest (p : process) (q : str) (k : nat) :
  fresh p -> embeddings_npy (disk p) = None ->
  retrieve q k p = (Raise FileNotFoundError, add_call (CallRetrieve q k) p)
  /\ fresh (add_call (CallRetrieve q k) p)
  /\ forall fs' E Ms,
       embeddings_npy fs' = Some E -> metadata_json fs' = Some Ms ->
       indexed E Ms (set_disk fs' (add_call (CallRetrieve q k) p)).
Proof.
  intros (HE & HMs & Hnn) HfE. split; [|split].
  - unfold retrieve. run. rewrite Hnn. unfold load_index. run.
    rewrite HE. run. rewrite HfE. run. reflexivity.
  - repeat split; assumption.
  - intros fs' E Ms HfE' HfM'. right. repeat split; assumption.
Qed.

End Globals.

(** ** rag.py: calls and citations *)

Section Calls.
Context `{SentenceModel} `{Rag.ChatModel}.
Import Rag.

Lemma for_each_state found p :
  snd (for_each (fun '(d, idx) =>
         ms ← read metas;
         match ms with
         | None => raise TypeError
         | Some ms =>
             match ms !! idx with
             | None => raise IndexError
             | Some m => ret {| r_meta := m; similarity := (1 - d)%Q |}
             end
         end) found p) = p.
Proof.
  destruct (metas p) as [Ms|] eqn:HMs.
  - rewrite (for_each_metas Ms) by exact HMs. reflexivity.
  - destruct found as [|[d idx] found]; [reflexivity|].
    cbn [for_each]. run. rewrite HMs. run. reflexivity.
Qed.

(** Every call of [retrieve] leaves exactly one entry in the trace. *)
Lemma retrieve_calls q k p :
  calls (snd (retrieve q k p)) = calls p ++ [CallRetrieve q k].
Proof.
  unfold retrieve. run.
  destruct (nn p) as [n|] eqn:Hnn; run.
  - destruct (kneighbors n (encode q) k) as [found|e];
      [rewrite for_each_state|]; reflexivity.
  - unfold load_index. run.
    destruct (embeddings p) as [E|] eqn:HE; run;
      [|destruct (embeddings_npy (disk p)) as [E|]; run; [|reflexivity]];
      (destruct (metas p) as [Ms|] eqn:HMs; run;
       [|destruct (metadata_json (disk p)) as [Ms|]; run; [|reflexivity]]);
      rewrite ?HE; cbn [default from_option id].
    all: destruct E as [|row E]; cbn [fit n_neighbors]; run; [reflexivity|].
    all: match goal with
         | |- context [kneighbors ?n ?v ?k] =>
             destruct (kneighbors n v k) as [found|e]
         end; [rewrite for_each_state|]; reflexivity.
Qed.

(** X10. In every state of the process, [answer_query] calls [retrieve]
    once and the completion model at most once: once, with the prompt
    built from the results, when a client is configured and retrieval
    returned; not at all when retrieval raised or no client is
    configured. *)
Theorem answer_query_calls (q : str) (k : nat) (p : process) :
  calls (snd (answer_query q k p))
  = calls p ++ [CallAnswerQuery q k; CallRetrieve q k]
      ++ match fst (retrieve q k (add_call (CallAnswerQuery q k) p)), openai_client with
         | Ok results, Some _ => [CallChat (prompt_of q results)]
         | _, _ => []
         end.
Proof.
  rewrite answer_query_run.
  pose proof (retrieve_calls q k (add_call (CallAnswerQuery q k) p)) as Hcalls.
  destruct (retrieve q k (add_call (CallAnswerQuery q k) p)) as [[results|e] p'];
    cbn [fst snd calls add_call] in *.
  - destruct openai_client as [client|] eqn:Hc.
    + rewrite (answer_from_client client) by exact Hc.
      destruct (client SYSTEM_MESSAGE (prompt_of q results));
        cbn [snd calls add_call]; rewrite Hcalls, <- !app_assoc; reflexivity.
    + rewrite answer_from_no_client by exact Hc. cbn [snd].
      rewrite Hcalls, <- !app_assoc. reflexivity.
  - rewrite Hcalls, <- !app_assoc. destruct openai_client; reflexivity.
Qed.

(** The results are in order of non-increasing similarity. *)
Lemma retrieve_sorted E Ms p q k results p' :
  indexed E Ms p -> retrieve q k p = (Ok results, p') ->
  length results = k
  /\ forall i j ri rj, i <= j -> results !! i = Some ri -> results !! j = Some rj ->
       (similarity rj <= similarity ri)%Q.
Proof.
  intros Hidx Hret.
  destruct (retrieve_results E Ms p q k results p' Hidx Hret) as (Hk & _ & Hres).
  destruct (rmap_ok _ _ _ Hres) as [Hlen Hall].
  split; [rewrite Hlen; apply neighbours_length; lia|].
  intros i j ri rj Hij Hi Hj.
  destruct (Hall i ri Hi) as (fi & Hfi & Hri).
  destruct (Hall j rj Hj) as (fj & Hfj & Hrj).
  pose proof (neighbours_sorted E (encode q) k i j fi fj Hij Hfi Hfj) as Hn.
  unfold result_of in Hri, Hrj.
  destruct (Ms !! snd fi); [|discriminate]. destruct (Ms !! snd fj); [|discriminate].
  injection Hri as <-. injection Hrj as <-. cbn. unfold nearer in Hn. lra.
Qed.

(** X11. When [answer_query] returns on an index, its citations are
    [top_k] many, in order of non-increasing similarity, each with the
    title and URL of an entry of the metadata; and the confidence is the
    sum of the similarities of the citations over their number. *)
Theorem answer_query_citations (E : list vec) (Ms : list meta) (p p' : process)
    (q : str) (k : nat) (r : answer_response) :
  indexed E Ms p -> answer_query q k p = (Ok r, p') ->
  length (citations r) = k
  /\ (forall i j ci cj, i <= j -> citations r !! i = Some ci -> citations r !! j = Some cj ->
        (c_similarity cj <= c_similarity ci)%Q)
  /\ Forall (fun c => exists m, m ∈ Ms /\ c_title c = title m /\ c_url c = url m)
            (citations r)
  /\ confidence r
     = (sum (map c_similarity (citations r))
        / inject_Z (Z.of_nat (Nat.max 1 (length (citations r)))))%Q.
Proof.
  intros Hidx Hans. rewrite answer_query_run in Hans.
  destruct (retrieve q k (add_call (CallAnswerQuery q k) p)) as [[results|e] p1] eqn:Hret;
    [|discriminate].
  pose proof (indexed_add_call E Ms p (CallAnswerQuery q k) Hidx) as Hidx'.
  destruct (retrieve_sorted E Ms _ q k results p1 Hidx' Hret) as [Hlen Hsorted].
  pose proof (retrieved_rows E Ms _ q k results p1 Hidx' Hret) as Hrows.
  assert (Hr : exists content, r = response content results).
  { destruct openai_client as [client|] eqn:Hc.
    - rewrite (answer_from_client client) in Hans by exact Hc.
      destruct (client SYSTEM_MESSAGE (prompt_of q results)); [|discriminate].
      injection Hans as <- _. eauto.
    - rewrite answer_from_no_client in Hans by exact Hc. injection Hans as <- _. eauto. }
  destruct Hr as [content ->]. cbn [citations confidence response].
  split; [rewrite length_map; exact Hlen|]. split; [|split].
  - intros i j ci cj Hij Hi Hj. rewrite list_lookup_fmap in Hi, Hj.
    destruct (results !! i) as [ri|] eqn:Hri; [|discriminate].
    destruct (results !! j) as [rj|] eqn:Hrj; [|discriminate].
    injection Hi as <-. injection Hj as <-. cbn.
    exact (Hsorted i j ri rj Hij Hri Hrj).
  - apply Forall_fmap. eapply Forall_impl; [exact Hrows|].
    intros x (i & row & _ & Hm & _). exists (r_meta x). cbn.
    split; [apply list_elem_of_lookup; eauto | split; reflexivity].
  - unfold avg_sim. rewrite length_map, map_map. reflexivity.
Qed.

End Calls.

(** ** app.py: the two handlers *)

Section Strip.

Lemma forallb_isspace_reverse (s : str) :
  forallb isspace (reverse s) = forallb isspace s.
Proof.
  induction s as [|c s IH]; [reflexivity|].
  rewrite reverse_cons, forallb_app, IH. cbn. rewrite andb_true_r. apply andb_comm.
Qed.

Lemma lstrip_suffix (s : str) :
  exists ws, s = ws ++ lstrip s /\ forallb isspace ws = true.
Proof.
  induction s as [|c s (ws & Hs & Hws)]; cbn.
  - exists []. split; reflexivity.
  - destruct (isspace c) eqn:Hc.
    + exists (c :: ws). cbn. rewrite Hc, Hws. split; [f_equal; exact Hs | reflexivity].
    + exists []. split; reflexivity.
Qed.

Lemma lstrip_head (s : str) (c : N) : head (lstrip s) = Some c -> isspace c = false.
Proof.
  induction s as [|c' s IH]; cbn; [discriminate|].
  destruct (isspace c') eqn:Hc; [exact IH|]. cbn. intros [= <-]. exact Hc.
Qed.

Lemma rstrip_prefix (s : str) :
  exists ws, s = rstrip s ++ ws /\ forallb isspace ws = true.
Proof.
  destruct (lstrip_suffix (reverse s)) as (ws & Hs & Hws).
  exists (reverse ws). split.
  - unfold rstrip. rewrite <- reverse_app, <- Hs, reverse_involutive. reflexivity.
  - rewrite forallb_isspace_reverse. exact Hws.
Qed.

(** [strip] removes white space at both ends and nothing else; what it
    returns neither starts nor ends with white space, and is empty for
    exactly the strings made of white space. *)
Lemma strip_spec (s : str) :
  (exists ws1 ws2,
     s = ws1 ++ strip s ++ ws2
     /\ forallb isspace ws1 = true /\ forallb isspace ws2 = true)
  /\ (forall c, head (strip s) = Some c \/ last (strip s) = Some c -> isspace c = false)
  /\ (strip s = [] <-> forallb isspace s = true).
Proof.
  destruct (lstrip_suffix s) as (ws1 & Hs & Hws1).
  destruct (rstrip_prefix (lstrip s)) as (ws2 & Ht & Hws2).
  fold (strip s) in Ht.
  assert (Hends : forall c, head (strip s) = Some c \/ last (strip s) = Some c ->
                            isspace c = false).
  { intros c [Hc|Hc].
    - apply (lstrip_head s). rewrite Ht. destruct (strip s); [discriminate | exact Hc].
    - unfold strip, rstrip in Hc. rewrite last_reverse in Hc.
      exact (lstrip_head _ c Hc). }
  split; [|split].
  - exists ws1, ws2. rewrite <- Ht. repeat split; assumption.
  - exact Hends.
  - split; [|apply strip_spaces].
    intros Hnil. rewrite Hnil in Ht. cbn in Ht.
    rewrite Hs, forallb_app, Hws1. cbn.
    destruct (lstrip s) as [|c r] eqn:Hl; [reflexivity|].
    assert (Hc : isspace c = false) by (apply (lstrip_head s); rewrite Hl; reflexivity).
    rewrite <- Ht in Hws2. cbn in Hws2. rewrite Hc in Hws2. discriminate.
Qed.

End Strip.

Section Handlers.
Context `{SentenceModel} `{Rag.ChatModel}.
Import Rag App.

Lemma ask_cases_string (data : gmap str json_value) (p : process) (s : str) :
  data !! lit "question" = Some (JString s) ->
  ask data p
  = if forallb isspace s then (Ok (400, ErrorBody (lit "empty question")), p)
    else match answer_query (strip s) 4 p with
         | (Ok resp, p') => (Ok (200, AnswerBody resp), p')
         | (Raise e, p') => (Ok (500, ExceptionBody e), p')
         end.
Proof.
  intros Hdata. unfold ask. rewrite Hdata. cbn [default from_option id].
  destruct (strip_spec s) as (_ & _ & Hblank).
  destruct (forallb isspace s) eqn:Hs.
  - rewrite (proj2 Hblank eq_refl). reflexivity.
  - destruct (strip s) as [|c r] eqn:Hstrip.
    + pose proof (proj1 Hblank eq_refl) as Hcontra. discriminate.
    + unfold try_except. rewrite run_bind.
      destruct (answer_query (c :: r) 4 p) as [[resp|e] p']; reflexivity.
Qed.

(** X12. [ask] on any JSON object.  Without a question, or with a blank
    one, it answers 400.  With a question that is a string with some
    character that is not white space, it passes the question, without
    the white space at its ends and otherwise unchanged, to
    [answer_query] with [top_k = 4], and answers 200 with the response
    or, when [answer_query] raises, 500 with the exception: it does not
    raise.  A question that is not a string makes it raise
    [AttributeError] before anything is called. *)
Theorem ask_cases (data : gmap str json_value) (p : process) :
  match data !! lit "question" with
  | None => ask data p = (Ok (400, ErrorBody (lit "empty question")), p)
  | Some JOther => ask data p = (Raise AttributeError, p)
  | Some (JString s) =>
      (exists ws1 ws2,
         s = ws1 ++ strip s ++ ws2
         /\ forallb isspace ws1 = true /\ forallb isspace ws2 = true)
      /\ (forall c, head (strip s) = Some c \/ last (strip s) = Some c ->
            isspace c = false)
      /\ ask data p
         = if forallb isspace s then (Ok (400, ErrorBody (lit "empty question")), p)
           else match answer_query (strip s) 4 p with
                | (Ok resp, p') => (Ok (200, AnswerBody resp), p')
                | (Raise e, p') => (Ok (500, ExceptionBody e), p')
                end
  end.
Proof.
  destruct (data !! lit "question") as [[s|]|] eqn:Hdata.
  - destruct (strip_spec s) as (Hparts & Hends & _).
    split; [exact Hparts|]. split; [exact Hends|].
    apply ask_cases_string, Hdata.
  - unfold ask. rewrite Hdata. reflexivity.
  - unfold ask. rewrite Hdata. reflexivity.
Qed.

(** X13. On an index of fewer than four chunks, every question that is
    not blank is answered 500 with [ValueError]: [ask] always asks for
    four neighbours.  The completion model is not called. *)
Theorem ask_small_index (E : list vec) (Ms : list meta) (data : gmap str json_value)
    (p : process) (s : str) :
  indexed E Ms p -> length E < 4 ->
  data !! lit "question" = Some (JString s) -> forallb isspace s = false ->
  exists p',
    ask data p = (Ok (500, ExceptionBody ValueError), p')
    /\ calls p' = calls p ++ [CallAnswerQuery (strip s) 4; CallRetrieve (strip s) 4].
Proof.
  intros Hidx Hlen Hdata Hs.
  pose proof (ask_cases_string data p s Hdata) as Hask.
  rewrite Hs in Hask. rewrite Hask, answer_query_run.
  pose proof (indexed_add_call E Ms p (CallAnswerQuery (strip s) 4) Hidx) as Hidx'.
  pose proof (retrieve_calls (strip s) 4 (add_call (CallAnswerQuery (strip s) 4) p))
    as Hcalls.
  assert (Hraise : exists p1,
            retrieve (strip s) 4 (add_call (CallAnswerQuery (strip s) 4) p)
            = (Raise ValueError, p1)).
  { destruct E as [|row E].
    - apply (retrieve_empty_index Ms _ _ _ Hidx').
    - rewrite (retrieve_indexed (row :: E) Ms _ _ _ Hidx') by discriminate.
      rewrite (kneighbors_too_many (fitted (row :: E)) (row :: E))
        by (reflexivity || exact Hlen).
      cbn [rbind]. eauto. }
  destruct Hraise as [p1 Hp1]. rewrite Hp1 in *. cbn [snd calls add_call] in Hcalls.
  exists p1. split; [reflexivity|]. rewrite Hcalls, <- app_assoc. reflexivity.
Qed.

Lemma ingest_local_written (p : process) (ds : list doc) :
  docs_json (disk p) = Some ds ->
  exists E Ms,
    ingest_local p
    = (Ok (200, IngestBody (sum_list (map chunk_count ds))),
       set_disk {| docs_json := Some ds; embeddings_npy := Some E;
                   metadata_json := Some Ms |} p)
    /\ length E = sum_list (map chunk_count ds)
    /\ length Ms = length E
    /\ Forall (fun m => exists d, d ∈ ds /\ url m = doc_url d /\ title m = doc_title d) Ms.
Proof.
  intros Hdocs. unfold ingest_local, try_except, build_index. rewrite run_bind.
  unfold Ingest.build_index. rewrite Hdocs.
  destruct (collect_entries 0 ds) as (pairs & Hpairs & Hlen & Hall).
  rewrite Hpairs. cbn [docs_json embeddings_npy metadata_json].
  exists (map encode (map fst pairs)), (map snd pairs).
  rewrite run_ret. cbn [fst]. rewrite !length_map, Hlen.
  split; [reflexivity|]. split; [reflexivity|]. split; [reflexivity|].
  apply Forall_forall. intros m Hm. apply list_elem_of_fmap in Hm as (pr & -> & Hpr).
  destruct (Hall pr Hpr) as (k & d & Hk & _ & _ & _ & _ & _ & Hurl & Htitle).
  exists d. split; [apply list_elem_of_lookup; eauto | split; assumption].
Qed.

(** X14. [ingest_local] does not raise.  Without [docs.json] it answers
    500 with [FileNotFoundError] and changes nothing; otherwise it
    rewrites the two index files and answers 200 with the number of
    chunks of the documents.  The globals of [rag.py] are not touched
    either way. *)
Theorem ingest_local_cases (p : process) :
  match docs_json (disk p) with
  | None => ingest_local p = (Ok (500, ExceptionBody FileNotFoundError), p)
  | Some ds =>
      exists E Ms,
        ingest_local p
        = (Ok (200, IngestBody (sum_list (map chunk_count ds))),
           set_disk {| docs_json := Some ds; embeddings_npy := Some E;
                       metadata_json := Some Ms |} p)
        /\ length E = sum_list (map chunk_count ds)
        /\ length Ms = length E
  end.
Proof.
  destruct (docs_json (disk p)) as [ds|] eqn:Hdocs.
  - destruct (ingest_local_written p ds Hdocs) as (E & Ms & Hrun & HE & HMs & _).
    exists E, Ms. split; [exact Hrun|]. split; assumption.
  - unfold ingest_local, try_except, build_index. rewrite run_bind.
    unfold Ingest.build_index. rewrite Hdocs, run_ret.
    destruct p as [fs e m n cs]. reflexivity.
Qed.

Lemma ingest_local_state (p : process) :
  exists fs', snd (ingest_local p) = set_disk fs' p.
Proof.
  unfold ingest_local, try_except, build_index. rewrite run_bind.
  destruct (Ingest.build_index (disk p)) as [[r|e] fs']; rewrite run_ret; cbn [snd];
    eauto.
Qed.

(** X15. A process that has loaded an index keeps it through
    [ingest_local]: its retrievals return after the ingestion what they
    returned before, whatever the new documents are. *)
Theorem retrieve_after_ingest_local (E : list vec) (Ms : list meta) (p : process)
    (q : str) (k : nat) :
  loaded E Ms p ->
  loaded E Ms (snd (ingest_local p))
  /\ fst (retrieve q k (snd (ingest_local p))) = fst (retrieve q k p).
Proof.
  intros HL.
  assert (HL' : loaded E Ms (snd (ingest_local p))).
  { pose proof (ingest_local_state p) as [fs' ->]. exact HL. }
  split; [exact HL'|].
  rewrite (retrieve_loaded E Ms _ q k HL), (retrieve_loaded E Ms _ q k HL').
  reflexivity.
Qed.

End Handlers.

(** ** scraper.py: fetch *)

Section Fetch.
Context `{Web}.
Import Scraper.

(** The web after [n] requests for [url]. *)
Fixpoint requests (n : nat) (url : str) (w : web) : web :=
  match n with
  | 0 => w
  | S n' => requests n' url (snd (requests_get url w))
  end.

Lemma fetch_loop_attempts url retries :
  forall n i w,
    i + n = retries -> 0 < n ->
    exists m,
      m < n
      /\ (forall j, j < m -> exists e, fst (requests_get url (requests j url w)) = Raise e)
      /\ fetch_loop url retries i n w = requests_get url (requests m url w)
      /\ ((exists e, fst (fetch_loop url retries i n w) = Raise e) -> m = n - 1).
Proof.
  induction n as [|n IH]; intros i w Hi Hn; [lia|].
  cbn [fetch_loop].
  destruct (requests_get url w) as [[page|e] w'] eqn:Hget.
  - exists 0. split; [lia|]. split; [intros j Hj; lia|].
    cbn [requests]. rewrite Hget. split; [reflexivity|].
    intros [e He]. discriminate.
  - destruct (Nat.eqb_spec i (retries - 1)) as [Hlast|Hmore].
    + exists 0. split; [lia|]. split; [intros j Hj; lia|].
      cbn [requests]. rewrite Hget. split; [reflexivity|]. intros _. lia.
    + destruct (IH (S i) w' ltac:(lia) ltac:(lia)) as (m & Hm & Hfail & Hrun & Hraise).
      exists (S m). split; [lia|]. split; [|split].
      * intros [|j] Hj; cbn [requests]; rewrite Hget; cbn [snd fst]; [eauto|].
        apply Hfail. lia.
      * cbn [requests]. rewrite Hget. exact Hrun.
      * intros Hr. specialize (Hraise Hr). lia.
Qed.

(** X16. [fetch] with no retries at all raises [RuntimeError] without a
    request.  Otherwise it makes requests for the URL until one
    succeeds, at most [retries] of them, and returns what the last one
    it made returned: the page of the first request that succeeds, or,
    when all fail, the exception of the last. *)
Theorem fetch_attempts (url : str) (retries : nat) (w : web) :
  match retries with
  | 0 => fetch url retries w = (Raise RuntimeError, w)
  | S _ =>
      exists m,
        m < retries
        /\ (forall j, j < m -> exists e, fst (requests_get url (requests j url w)) = Raise e)
        /\ fetch url retries w = requests_get url (requests m url w)
        /\ ((exists e, fst (fetch url retries w) = Raise e) -> m = retries - 1)
  end.
Proof.
  destruct retries as [|r]; [reflexivity|].
  apply (fetch_loop_attempts url (S r) (S r) 0 w); lia.
Qed.

End Fetch.

(** ** scraper.py: the shape of a run *)

Section CrawlRun.
Context `{Web}.
Import Scraper.

Lemma crawl_loop_inv start_url max_pages fuel :
  forall s final,
    crawl_loop fuel start_url max_pages s = Some final ->
    exists n,
      n <= fuel
      /\ final = after n start_url s
      /\ (forall m, m < n -> running max_pages (after m start_url s) = true)
      /\ running max_pages final = false.
Proof.
  induction fuel as [|fuel IH]; intros s final; cbn [crawl_loop];
    destruct (running max_pages s) eqn:Hrun.
  - discriminate.
  - intros [= <-]. exists 0. repeat split; [lia | intros m Hm; lia | exact Hrun].
  - intros Hloop. destruct (IH _ _ Hloop) as (n & Hn & Hfinal & Hbefore & Hend).
    exists (S n). split; [lia|]. split; [exact Hfinal|]. split; [|exact Hend].
    intros [|m] Hm; [exact Hrun | apply Hbefore; lia].
  - intros [= <-]. exists 0. repeat split; [lia | intros m Hm; lia | exact Hrun].
Qed.

Lemma iteration_docs start_url s url rest :
  to_visit s = url :: rest -> url ∉ visited s ->
  docs (iteration start_url s) = docs s
  \/ exists t c,
       docs (iteration start_url s)
       = docs s ++ [{| doc_url := url; doc_title := t; doc_content := c |}].
Proof.
  intros Hto Hnot. unfold iteration. rewrite Hto.
  destruct (decide (url ∈ visited s)); [contradiction|].
  destruct (fetch url 3 (outside s)) as [[page|e] w]; cbn [docs]; [|left; reflexivity].
  destruct (extract_text_from_page page url) as [[t c]|e]; [right; eauto | left; reflexivity].
Qed.

(** What holds after [n] passes of a run: the invariant of the loop, and
    one fetched URL per pass, the fetched URLs being the visited set and
    the URLs of the documents a part of them, in order. *)
Record run_invariant (n : nat) (s : crawl) : Prop := {
  run_crawl : crawl_invariant s;
  run_visited : visited s = list_to_set (fetched s);
  run_count : length (fetched s) = n;
  run_docs : map doc_url (docs s) `sublist_of` fetched s
}.

Lemma run_invariant_start start_url w : run_invariant 0 (start start_url w).
Proof.
  constructor; cbn; [apply invariant_start | reflexivity | reflexivity | constructor].
Qed.

Lemma run_invariant_iteration start_url max_pages n s :
  run_invariant n s -> running max_pages s = true ->
  run_invariant (S n) (iteration start_url s).
Proof.
  intros [Hinv Hvis Hcount Hdocs] Hrun.
  destruct (to_visit s) as [|url rest] eqn:Hto.
  { unfold running in Hrun. rewrite Hto in Hrun. discriminate. }
  assert (Hnot : url ∉ visited s).
  { apply (frontier_unvisited s Hinv). rewrite Hto. set_solver. }
  destruct (iteration_fetch start_url s url rest Hto Hnot)
    as (added & Ht & Hv & Hf & _).
  constructor.
  - apply invariant_iteration, Hinv.
  - rewrite Hv, Hf, Hvis, list_to_set_app_L. cbn. set_solver.
  - rewrite Hf, length_app, Hcount. cbn. lia.
  - rewrite Hf. destruct (iteration_docs start_url s url rest Hto Hnot)
      as [->|(t & c & ->)].
    + apply sublist_inserts_r, Hdocs.
    + rewrite map_app. cbn [map doc_url]. apply sublist_app; [exact Hdocs | reflexivity].
Qed.

Lemma run_invariant_after start_url max_pages n :
  forall k s,
    run_invariant k s ->
    (forall m, m < n -> running max_pages (after m start_url s) = true) ->
    run_invariant (k + n) (after n start_url s).
Proof.
  induction n as [|n IH]; intros k s Hs Hbefore.
  - rewrite Nat.add_0_r. exact Hs.
  - cbn [after]. replace (k + S n) with (S k + n) by lia. apply IH.
    + apply (run_invariant_iteration start_url max_pages); [exact Hs|].
      exact (Hbefore 0 ltac:(lia)).
    + intros m Hm. exact (Hbefore (S m) ltac:(lia)).
Qed.

Lemma run_size n s : run_invariant n s -> size (visited s) = n.
Proof.
  intros [Hinv Hvis Hcount _]. rewrite Hvis, size_list_to_set, Hcount; [reflexivity|].
  apply (fetched_distinct s Hinv).
Qed.

Lemma run_of_loop start_url max_pages w fuel final :
  crawl_loop fuel start_url max_pages (start start_url w) = Some final ->
  exists n,
    final = after n start_url (start start_url w)
    /\ run_invariant n final
    /\ n <= max_pages.
Proof.
  intros Hloop.
  destruct (crawl_loop_inv start_url max_pages fuel _ _ Hloop)
    as (n & _ & Hfinal & Hbefore & _).
  exists n. split; [exact Hfinal|].
  pose proof (run_invariant_after start_url max_pages n 0 _
                (run_invariant_start start_url w) Hbefore) as Hrun.
  cbn [Nat.add] in Hrun. rewrite <- Hfinal in Hrun. split; [exact Hrun|].
  destruct n as [|m]; [lia|].
  pose proof (Hbefore m ltac:(lia)) as Hlast.
  pose proof (run_invariant_after start_url max_pages m 0 _
                (run_invariant_start start_url w)
                (fun j Hj => Hbefore j ltac:(lia))) as Hm.
  cbn [Nat.add] in Hm. apply run_size in Hm.
  unfold running in Hlast.
  destruct (to_visit (after m start_url (start start_url w))); [discriminate|].
  apply bool_decide_eq_true in Hlast. lia.
Qed.

(** X17. A run of the loop of [scrape] makes as many passes as it fetches
    URLs, one each, and at most [max_pages] of them; in the end the
    visited set is exactly the set of the fetched URLs. *)
Theorem crawl_run_shape (start_url : str) (max_pages : nat) (w : web)
    (fuel : nat) (final : crawl) :
  crawl_loop fuel start_url max_pages (start start_url w) = Some final ->
  final = after (length (fetched final)) start_url (start start_url w)
  /\ length (fetched final) <= max_pages
  /\ size (visited final) = length (fetched final)
  /\ visited final = list_to_set (fetched final).
Proof.
  intros Hloop.
  destruct (run_of_loop start_url max_pages w fuel final Hloop) as (n & Hfinal & Hrun & Hn).
  pose proof (run_count n final Hrun) as Hcount. rewrite Hcount.
  split; [exact Hfinal|]. split; [exact Hn|].
  split; [apply run_size, Hrun | apply (run_visited n final Hrun)].
Qed.

(** X18. [scrape] returns at most [max_pages] documents, no two of them
    for the same URL; their URLs are fetched URLs, in the order in which
    they were fetched. *)
Theorem scrape_documents (start_url : str) (max_pages : nat) (w : web)
    (fuel : nat) (ds : list doc) (final : crawl) :
  scrape fuel start_url max_pages w = Some (ds, final) ->
  length ds <= max_pages
  /\ NoDup (map doc_url ds)
  /\ map doc_url ds `sublist_of` fetched final
  /\ Forall (fun d => doc_url d ∈ visited final) ds.
Proof.
  unfold scrape.
  destruct (crawl_loop fuel start_url max_pages (start start_url w)) as [s|] eqn:Hloop;
    [|discriminate].
  intros [= <- <-].
  destruct (run_of_loop start_url max_pages w fuel s Hloop) as (n & _ & Hrun & Hn).
  destruct Hrun as [Hinv Hvis Hcount Hdocs].
  split; [|split; [|split]].
  - apply sublist_length in Hdocs. rewrite length_map in Hdocs. lia.
  - exact (sublist_NoDup _ _ (fetched_distinct s Hinv) Hdocs).
  - exact Hdocs.
  - apply Forall_forall. intros d Hd. rewrite Hvis. apply elem_of_list_to_set.
    apply (elem_of_sublist (map doc_url (docs s))); [|exact Hdocs].
    apply list_elem_of_fmap. eauto.
Qed.

(** X19. After any number of passes from the start of [scrape], the
    frontier holds no URL that is already visited: the test
    [if url in visited: continue] never succeeds, and every pass over a
    frontier that is not empty fetches the URL it pops. *)
Theorem crawl_never_skips (start_url : str) (w : web) (n : nat) :
  Forall (fun u => u ∉ visited (after n start_url (start start_url w)))
         (to_visit (after n start_url (start start_url w)))
  /\ match to_visit (after n start_url (start start_url w)) with
     | [] => True
     | url :: _ =>
         fetched (iteration start_url (after n start_url (start start_url w)))
         = fetched (after n start_url (start start_url w)) ++ [url]
     end.
Proof.
  assert (Hinv : crawl_invariant (after n start_url (start start_url w))).
  { generalize (invariant_start start_url w). generalize (start start_url w).
    induction n as [|n IH]; intros s Hs; [exact Hs|].
    cbn [after]. apply IH, invariant_iteration, Hs. }
  set (s := after n start_url (start start_url w)) in *.
  split.
  - apply Forall_forall. exact (frontier_unvisited s Hinv).
  - destruct (to_visit s) as [|url rest] eqn:Hto; [exact I|].
    assert (Hnot : url ∉ visited s).
    { apply (frontier_unvisited s Hinv). rewrite Hto. set_solver. }
    destruct (iteration_fetch start_url s url rest Hto Hnot) as (added & _ & _ & Hf & _).
    exact Hf.
Qed.

End CrawlRun.

(** ** scraper.py: where a run can go *)

Section Confined.
Context `{Web}.
Import Scraper.

(** Every URL of the state satisfies [P]. *)
Definition within (P : str -> Prop) (s : crawl) : Prop :=
  Forall P (to_visit s)
  /\ Forall P (fetched s)
  /\ (forall u, u ∈ visited s -> P u)
  /\ Forall (fun d => P (doc_url d)) (docs s).

Lemma within_iteration (P : str -> Prop) start_url s :
  (forall page links, get_links page start_url = Ok links -> Forall P links) ->
  within P s -> within P (iteration start_url s).
Proof.
  intros Hlinks (Hto & Hfe & Hvi & Hdo). unfold iteration.
  destruct (to_visit s) as [|url rest] eqn:Hfront.
  { unfold within. rewrite Hfront. repeat split; assumption || constructor. }
  apply Forall_cons in Hto as [Hurl Hrest].
  assert (Hvi' : forall u, u ∈ visited s ∪ {[url]} -> P u).
  { intros u Hu. apply elem_of_union in Hu as [Hu|Hu]; [apply Hvi, Hu|].
    apply elem_of_singleton in Hu as ->. exact Hurl. }
  assert (Hfe' : Forall P (fetched s ++ [url])).
  { apply Forall_app. split; [exact Hfe | repeat constructor; exact Hurl]. }
  destruct (decide (url ∈ visited s)); [repeat split; assumption|].
  destruct (fetch url 3 (outside s)) as [[page|e] w]; [|repeat split; assumption].
  unfold within; cbn [to_visit fetched visited docs].
  split; [|split; [exact Hfe'|split; [exact Hvi'|]]].
  - destruct (get_links page start_url) as [links|e] eqn:Hget; [|exact Hrest].
    destruct (enqueue_adds (visited s ∪ {[url]}) links rest) as (added & -> & _ & Hadded).
    apply Forall_app. split; [exact Hrest|].
    apply Forall_forall. intros l Hl. destruct (Hadded l Hl) as (_ & _ & Hin).
    pose proof (Hlinks page links Hget) as Hall. rewrite Forall_forall in Hall.
    apply Hall, Hin.
  - destruct (extract_text_from_page page url) as [[t c]|e]; [|exact Hdo].
    apply Forall_app. split; [exact Hdo | repeat constructor; exact Hurl].
Qed.

Lemma within_start (P : str -> Prop) start_url w :
  P start_url -> within P (start start_url w).
Proof.
  intros Hseed. unfold within. cbn.
  repeat split; try constructor; try assumption; try constructor.
  intros u Hu. set_solver.
Qed.

Lemma within_after (P : str -> Prop) start_url n :
  (forall page links, get_links page start_url = Ok links -> Forall P links) ->
  forall s, within P s -> within P (after n start_url s).
Proof.
  intros Hlinks. induction n as [|n IH]; intros s Hs; [exact Hs|].
  cbn [after]. apply IH, within_iteration; assumption.
Qed.

(** X20. A crawl stays within what [get_links] lets through: if the seed
    has a property and every link that [get_links] returns for the seed
    as base has it, then so has every URL that is ever in the frontier,
    fetched, visited or given to a document. *)
Theorem crawl_confined (P : str -> Prop) (start_url : str) (w : web) (n : nat) :
  P start_url ->
  (forall page links, get_links page start_url = Ok links -> Forall P links) ->
  within P (after n start_url (start start_url w)).
Proof.
  intros Hseed Hlinks. apply within_after; [exact Hlinks|].
  apply within_start, Hseed.
Qed.

Lemma fetched_grows start_url s :
  exists more, fetched (iteration start_url s) = fetched s ++ more.
Proof.
  unfold iteration. destruct (to_visit s) as [|url rest].
  { exists []. rewrite app_nil_r. reflexivity. }
  destruct (decide (url ∈ visited s)).
  { exists []. rewrite app_nil_r. reflexivity. }
  destruct (fetch url 3 (outside s)) as [[page|e] w]; exists [url]; reflexivity.
Qed.

Lemma fetched_grows_after start_url n :
  forall s, exists more, fetched (after n start_url s) = fetched s ++ more.
Proof.
  induction n as [|n IH]; intros s.
  - exists []. rewrite app_nil_r. reflexivity.
  - cbn [after]. destruct (IH (iteration start_url s)) as [more ->].
    destruct (fetched_grows start_url s) as [more' ->].
    exists (more' ++ more). rewrite app_assoc. reflexivity.
Qed.

(** X21. With a page budget of 0 the loop of [scrape] does nothing: no
    URL is fetched and no document returned.  With any other budget the
    seed is the first URL fetched. *)
Theorem crawl_starts_at_seed (start_url : str) (max_pages : nat) (w : web)
    (fuel : nat) (final : crawl) :
  crawl_loop fuel start_url max_pages (start start_url w) = Some final ->
  match max_pages with
  | 0 => final = start start_url w
  | S _ => head (fetched final) = Some start_url
  end.
Proof.
  intros Hloop.
  destruct (crawl_loop_inv start_url max_pages fuel _ _ Hloop)
    as (n & _ & Hfinal & Hbefore & Hend).
  destruct max_pages as [|b].
  - destruct n as [|n]; [exact Hfinal|].
    pose proof (Hbefore 0 ltac:(lia)) as Hrun. cbn in Hrun.
    rewrite bool_decide_eq_true in Hrun. lia.
  - destruct n as [|n].
    + subst final. cbn in Hend. rewrite bool_decide_eq_false in Hend.
      rewrite size_empty in Hend. lia.
    + cbn [after] in Hfinal.
      destruct (iteration_fetch start_url (start start_url w) start_url [] eq_refl
                  ltac:(set_solver)) as (added & _ & _ & Hf & _).
      destruct (fetched_grows_after start_url n (iteration start_url (start start_url w)))
        as [more Hmore].
      rewrite Hfinal, Hmore, Hf. reflexivity.
Qed.

End Confined.

(** ** scraper.py: get_links

    [get_links] is modelled over the two libraries it calls: the HTML
    parser, of which it uses the [href] attributes of the anchors of a
    page, in document order, and [urllib.parse], of which it uses
    [urljoin] and the [netloc] and [scheme] parts of [urlparse]. *)

Class HtmlParser := {
  soup : Type;
  anchors : soup -> list str
}.

Class UrlParse := {
  urljoin : str -> str -> str;
  netloc : str -> str;
  scheme : str -> str
}.

Module Links.

(** [s.startswith(prefix)]. *)
Fixpoint startswith (s prefix : str) {struct prefix} : bool :=
  match prefix, s with
  | [], _ => true
  | _ :: _, [] => false
  | p :: prefix', c :: s' => (p =? c)%N && startswith s' prefix'
  end.

(** [needle in hay], on strings. *)
Fixpoint contains (needle hay : str) : bool :=
  startswith hay needle
  || match hay with
     | [] => false
     | _ :: hay' => contains needle hay'
     end.

(** [s.split("#")[0]]. *)
Fixpoint before_hash (s : str) : str :=
  match s with
  | [] => []
  | c :: s' => if (c =? 35)%N then [] else c :: before_hash s'
  end.

Section WithLibraries.
Context `{HtmlParser} `{UrlParse}.

(** The body of the loop for one [href]: the link it adds, if any. *)
Definition link_of (base_domain base href : str) : option str :=
  if startswith href (lit "mailto:") || startswith href (lit "javascript:") then None
  else
    let abs_url := urljoin base href in
    if negb (bool_decide (netloc abs_url = []))
       && contains base_domain (netloc abs_url)
       && (bool_decide (scheme abs_url = lit "http")
           || bool_decide (scheme abs_url = lit "https"))
    then Some (before_hash abs_url)
    else None.

(** The set is listed in the order of [elements]; Python leaves the
    order of [list(links)] open. *)
Definition get_links (page : soup) (base : str) : list str :=
  let base_domain := netloc base in
  let links : gset str :=
    foldl (fun links href =>
             match link_of base_domain base href with
             | Some l => links ∪ {[l]}
             | None => links
             end) ∅ (anchors page) in
  elements links.

End WithLibraries.
End Links.

Section LinksFacts.
Context `{HtmlParser} `{UrlParse}.
Import Links.

Lemma startswith_prefix (s prefix : str) :
  startswith s prefix = true <-> exists rest, s = prefix ++ rest.
Proof.
  revert s. induction prefix as [|p prefix IH]; intros s; cbn.
  - split; [eauto | reflexivity].
  - destruct s as [|c s].
    + split; [discriminate | intros [rest Hrest]; discriminate].
    + rewrite andb_true_iff, N.eqb_eq, IH. split.
      * intros [-> [rest ->]]. eauto.
      * intros [rest [= -> ->]]. eauto.
Qed.

Lemma contains_infix (needle hay : str) :
  contains needle hay = true <-> exists a b, hay = a ++ needle ++ b.
Proof.
  induction hay as [|c hay IH]; cbn [contains]; rewrite orb_true_iff, startswith_prefix.
  - split.
    + intros [[rest Hrest]|Hf]; [|discriminate]. exists [], rest. exact Hrest.
    + intros (a & b & Hab). left. destruct a; [eauto|discriminate].
  - rewrite IH. split.
    + intros [[rest Hrest]|(a & b & ->)].
      * exists [], rest. exact Hrest.
      * exists (c :: a), b. reflexivity.
    + intros ([|c' a] & b & Hab).
      * left. eauto.
      * right. injection Hab as -> ->. eauto.
Qed.

Lemma before_hash_clean (s : str) : 35%N ∉ before_hash s.
Proof.
  induction s as [|c s IH]; cbn; [apply not_elem_of_nil|].
  destruct (N.eqb_spec c 35); [apply not_elem_of_nil|].
  apply not_elem_of_cons. split; [congruence | exact IH].
Qed.

Lemma before_hash_fixed (s : str) : 35%N ∉ s -> before_hash s = s.
Proof.
  induction s as [|c s IH]; cbn; [reflexivity|].
  intros Hs. apply not_elem_of_cons in Hs as [Hc Hs].
  destruct (N.eqb_spec c 35); [congruence|]. rewrite IH by exact Hs. reflexivity.
Qed.

Lemma get_links_elem (page : soup) (base l : str) :
  l ∈ get_links page base
  <-> exists href, href ∈ anchors page /\ link_of (netloc base) base href = Some l.
Proof.
  unfold get_links. rewrite elem_of_elements.
  assert (Hfold : forall hrefs (acc : gset (list N)),
            l ∈ foldl (fun links href =>
                         match link_of (netloc base) base href with
                         | Some l' => links ∪ {[l']}
                         | None => links
                         end) acc hrefs
            <-> l ∈ acc
                \/ exists href, href ∈ hrefs /\ link_of (netloc base) base href = Some l).
  { induction hrefs as [|href hrefs IH]; intros acc; cbn [foldl].
    - split; [auto|]. intros [Hl|(href & Hin & _)]; [exact Hl | inversion Hin].
    - rewrite IH. destruct (link_of (netloc base) base href) as [l'|] eqn:Hlink.
      + rewrite elem_of_union, elem_of_singleton. split.
        * intros [[Hl| ->]|(h & Hin & Hh)].
          -- left. exact Hl.
          -- right. exists href. split; [left | exact Hlink].
          -- right. exists h. split; [right; exact Hin | exact Hh].
        * intros [Hl|(h & Hin & Hh)]; [left; left; exact Hl|].
          apply elem_of_cons in Hin as [->|Hin].
          -- left. right. congruence.
          -- right. eauto.
      + split.
        * intros [Hl|(h & Hin & Hh)]; [left; exact Hl|].
          right. exists h. split; [right; exact Hin | exact Hh].
        * intros [Hl|(h & Hin & Hh)]; [left; exact Hl|].
          apply elem_of_cons in Hin as [->|Hin]; [congruence|]. right. eauto. }
  rewrite Hfold. split.
  - intros [Hl|Hex]; [set_solver | exact Hex].
  - intros Hex. right. exact Hex.
Qed.

(** What lets an [href] through. *)
Definition passes (base href : str) : Prop :=
  startswith href (lit "mailto:") = false
  /\ startswith href (lit "javascript:") = false
  /\ netloc (urljoin base href) <> []
  /\ (exists a b, netloc (urljoin base href) = a ++ netloc base ++ b)
  /\ (scheme (urljoin base href) = lit "http" \/ scheme (urljoin base href) = lit "https").

Lemma link_of_passes (base href l : str) :
  link_of (netloc base) base href = Some l
  <-> passes base href /\ l = before_hash (urljoin base href).
Proof.
  unfold link_of, passes.
  destruct (startswith href (lit "mailto:")); cbn [orb].
  { split; [discriminate | intros [[Hm _] _]; discriminate]. }
  destruct (startswith href (lit "javascript:")); cbn [orb].
  { split; [discriminate | intros [(_ & Hj & _) _]; discriminate]. }
  destruct (bool_decide (netloc (urljoin base href) = [])) eqn:Hn; cbn [negb andb].
  { apply bool_decide_eq_true in Hn.
    split; [discriminate | intros [(_ & _ & Hne & _) _]; contradiction]. }
  apply bool_decide_eq_false in Hn.
  destruct (contains (netloc base) (netloc (urljoin base href))) eqn:Hc; cbn [andb].
  2:{ split; [discriminate|]. intros [(_ & _ & _ & Hin & _) _].
      apply contains_infix in Hin. congruence. }
  apply contains_infix in Hc.
  destruct (bool_decide (scheme (urljoin base href) = lit "http")) eqn:Hs1; cbn [orb].
  { apply bool_decide_eq_true in Hs1. split.
    - intros [= <-]. repeat split; auto.
    - intros [_ ->]. reflexivity. }
  apply bool_decide_eq_false in Hs1.
  destruct (bool_decide (scheme (urljoin base href) = lit "https")) eqn:Hs2.
  { apply bool_decide_eq_true in Hs2. split.
    - intros [= <-]. repeat split; auto.
    - intros [_ ->]. reflexivity. }
  apply bool_decide_eq_false in Hs2.
  split; [discriminate|]. intros [(_ & _ & _ & _ & [Hs|Hs]) _]; contradiction.
Qed.

(** X22. The links that [get_links] returns are distinct and contain no
    [#].  They are the absolute forms, cut before the fragment, of the
    [href]s of the page that start with neither [mailto:] nor
    [javascript:], whose absolute form has the scheme [http] or [https]
    and a network location that is not empty and contains the network
    location of the base somewhere as a substring. *)
Theorem get_links_links (page : soup) (base : str) :
  NoDup (get_links page base)
  /\ Forall (fun l => 35%N ∉ l) (get_links page base)
  /\ forall l,
       l ∈ get_links page base
       <-> exists href,
             href ∈ anchors page /\ passes base href
             /\ l = before_hash (urljoin base href).
Proof.
  split; [apply NoDup_elements|].
  assert (Hiff : forall l,
            l ∈ get_links page base
            <-> exists href,
                  href ∈ anchors page /\ passes base href
                  /\ l = before_hash (urljoin base href)).
  { intros l. rewrite get_links_elem. split.
    - intros (href & Hin & Hlink). apply link_of_passes in Hlink. eauto.
    - intros (href & Hin & Hp & Hl). exists href. split; [exact Hin|].
      apply link_of_passes. split; assumption. }
  split; [|exact Hiff].
  apply Forall_forall. intros l Hl. apply Hiff in Hl as (href & _ & _ & ->).
  apply before_hash_clean.
Qed.

(** X23. When the base has no network location (a seed written without
    [//]), the test on the domain lets every host through: every
    [http] or [https] link of the page with a host is returned. *)
Theorem get_links_without_domain (page : soup) (base href : str) :
  netloc base = [] ->
  href ∈ anchors page ->
  startswith href (lit "mailto:") = false ->
  startswith href (lit "javascript:") = false ->
  netloc (urljoin base href) <> [] ->
  scheme (urljoin base href) = lit "http" \/ scheme (urljoin base href) = lit "https" ->
  before_hash (urljoin base href) ∈ get_links page base.
Proof.
  intros Hbase Hin Hm Hj Hhost Hscheme.
  apply get_links_elem. exists href. split; [exact Hin|].
  apply link_of_passes. split; [|reflexivity].
  unfold passes. rewrite Hbase. repeat split; try assumption.
  exists [], (netloc (urljoin base href)). reflexivity.
Qed.

End LinksFacts.

(** ** scraper.py: a crawl with that get_links *)

Section CrawlLinks.
Context `{HtmlParser} `{UrlParse} {W : Type}.
Variable get : str -> W -> result soup * W.
Variable extract : soup -> str -> result (str * str).
Import Scraper.

(** The crawler over a web [W] whose pages are read by [get] and
    [extract], with the [get_links] above. *)
Definition crawler : Web :=
  {| html := soup;
     web := W;
     requests_get := get;
     extract_text_from_page := extract;
     get_links := fun page base => Ok (Links.get_links page base) |}.

(** X24. In a crawl, every URL other than the seed that is ever in the
    frontier, fetched, visited or given to a document is the absolute
    form, cut before the fragment, of a link that passed the tests of
    [get_links] against the seed; in particular it contains no [#].
    The seed itself is taken as it is given. *)
Theorem crawl_follows_links (start_url : str) (w : W) (n : nat) :
  within (H := crawler)
         (fun u => u = start_url
                   \/ (35%N ∉ u
                       /\ exists href, passes start_url href
                                       /\ u = Links.before_hash (urljoin start_url href)))
         (after (H := crawler) n start_url (start (H := crawler) start_url w)).
Proof.
  apply (within_after (H := crawler)).
  - intros page links [= <-]. apply Forall_forall. intros l Hl.
    apply get_links_elem in Hl as (href & _ & Hlink).
    apply link_of_passes in Hlink as [Hp ->].
    right. split; [apply before_hash_clean | eauto].
  - apply (within_start (H := crawler)). left. reflexivity.
Qed.

End CrawlLinks.

(** ** From one stage to the next *)

Section CrawlThenIndex.
Context `{SentenceModel} `{Web}.
Import Scraper.

(** X25. When the documents that [scrape] returned are what
    [build_index] reads, every entry of the metadata has a [doc_id]
    below the page budget and the URL of a page that the crawl
    visited. *)
Theorem crawl_then_index (start_url : str) (max_pages : nat) (w : web) (fuel : nat)
    (ds : list doc) (final : crawl) (fs : files) :
  scrape fuel start_url max_pages w = Some (ds, final) ->
  docs_json fs = Some ds ->
  exists E Ms,
    fst (Ingest.build_index fs) = Ok (E, Ms)
    /\ Forall (fun m => doc_id m < max_pages /\ url m ∈ visited final) Ms.
Proof.
  unfold scrape.
  destruct (crawl_loop fuel start_url max_pages (start start_url w)) as [s|] eqn:Hloop;
    [|discriminate].
  intros [= <- <-] Hdocs.
  destruct (run_of_loop start_url max_pages w fuel s Hloop) as (n & _ & Hrun & Hn).
  destruct Hrun as [Hinv Hvis Hcount Hsub].
  destruct (collect_entries 0 (docs s)) as (pairs & Hpairs & _ & Hall).
  exists (map encode (map fst pairs)), (map snd pairs).
  unfold Ingest.build_index. rewrite Hdocs, Hpairs. cbn [fst].
  split; [reflexivity|].
  apply Forall_forall. intros m Hm. apply list_elem_of_fmap in Hm as (p & -> & Hp).
  destruct (Hall p Hp) as (k & d & Hk & Hid & _ & _ & _ & _ & Hurl & _).
  split.
  - rewrite Hid. cbn [Nat.add]. apply lookup_lt_Some in Hk.
    apply sublist_length in Hsub. rewrite length_map in Hsub. lia.
  - rewrite Hurl, Hvis. apply elem_of_list_to_set.
    apply (elem_of_sublist (map doc_url (docs s))); [|exact Hsub].
    apply list_elem_of_fmap. exists d. split; [reflexivity|].
    apply list_elem_of_lookup. eauto.
Qed.

End CrawlThenIndex.

Section IngestThenAsk.
Context `{SentenceModel} `{Rag.ChatModel}.
Import Rag App.

(** X26. In a process that has loaded nothing, [ingest_local] on
    documents with at least four chunks followed by [ask] with a
    question that is not blank, without a completion client, answers 200
    with four citations, each with the title and the URL of one of the
    documents. *)
Theorem ingest_then_ask (data : gmap str json_value) (p : process) (ds : list doc)
    (s : str) :
  fresh p -> docs_json (disk p) = Some ds ->
  4 <= sum_list (map chunk_count ds) ->
  data !! lit "question" = Some (JString s) -> forallb isspace s = false ->
  openai_client = None ->
  exists resp p',
    ask data (snd (ingest_local p)) = (Ok (200, AnswerBody resp), p')
    /\ length (citations resp) = 4
    /\ Forall (fun c => exists d, d ∈ ds /\ c_url c = doc_url d /\ c_title c = doc_title d)
              (citations resp).
Proof.
  intros (HE & HMs & Hnn) Hdocs Hcount Hdata Hs Hclient.
  destruct (ingest_local_written p ds Hdocs) as (E & Ms & Hrun & HlenE & HlenMs & Hmeta).
  rewrite Hrun. cbn [snd].
  set (p1 := set_disk _ p).
  assert (Hidx : indexed E Ms (add_call (CallAnswerQuery (strip s) 4) p1)).
  { right. repeat split; assumption. }
  assert (Hne : E <> []).
  { intros ->. cbn in HlenE. lia. }
  rewrite (ask_cases_string data p1 s Hdata), Hs, answer_query_run.
  rewrite (retrieve_indexed E Ms _ _ 4 Hidx Hne).
  rewrite (kneighbors_fitted (fitted E) E) by (reflexivity || lia). cbn [rbind].
  destruct (rmap_total (result_of Ms) (neighbours E (encode (strip s)) 4)
              (result_of_total E Ms (encode (strip s)) 4 ltac:(lia))) as [results Hres].
  rewrite Hres, answer_from_no_client by exact Hclient.
  destruct (rmap_ok _ _ _ Hres) as [Hlen Hall].
  eexists _, _. split; [reflexivity|]. cbn [citations response].
  split.
  - rewrite length_map, Hlen. apply neighbours_length. lia.
  - apply Forall_fmap, Forall_forall. intros r Hr. cbn.
    apply list_elem_of_lookup in Hr as [i Hi].
    destruct (Hall i r Hi) as (f & _ & Hf). unfold result_of in Hf.
    destruct (Ms !! snd f) as [m|] eqn:Hm; [|discriminate]. injection Hf as <-.
    cbn. rewrite Forall_forall in Hmeta. apply Hmeta, list_elem_of_lookup. eauto.
Qed.

End IngestThenAsk.

(** * Worked instances *)

(** ** A small corpus

    The example of the specification: document A is 1000 times the
    letter x, document B is "hello world".  The encoder of the example
    maps a text to a unit vector of the plane by its first letter; on
    unit vectors the cosine distance is one minus the inner product. *)

Definition toy_encode (text : str) : Q * Q :=
  match text with
  | 120%N :: _ => (1, 0)
  | 104%N :: _ => (0, 1)
  | _ => (- (3 # 5), - (4 # 5))
  end%Q.

#[local] Instance toy_model : SentenceModel :=
  {| vec := Q * Q;
     encode := toy_encode;
     cosine_distance := fun u v => (1 - (fst u * fst v + snd u * snd v))%Q |}.

#[local] Instance no_client : Rag.ChatModel := {| Rag.openai_client := None |}.

#[local] Instance canned_client : Rag.ChatModel :=
  {| Rag.openai_client := Some (fun _ _ => Ok (lit " Confidence: 0.9 ")) |}.

Definition toy_docs : list doc :=
  [ {| doc_url := lit "https://docs.example/a"; doc_title := lit "A";
       doc_content := replicate 1000 120%N |};
    {| doc_url := lit "https://docs.example/b"; doc_title := lit "B";
       doc_content := lit "hello world" |} ].

Definition toy_files : files :=
  {| docs_json := Some toy_docs; embeddings_npy := None; metadata_json := None |}.

Definition toy_E : list vec := default [] (embeddings_npy (snd (Ingest.build_index toy_files))).
Definition toy_Ms : list meta := default [] (metadata_json (snd (Ingest.build_index toy_files))).

(** A fresh process after ingestion. *)
Definition toy_process : Rag.process :=
  {| Rag.disk := snd (Ingest.build_index toy_files); Rag.embeddings := None;
     Rag.metas := None; Rag.nn := None; Rag.calls := [] |}.

Definition hello : str := lit "hello world".
Definition other : str := lit "zzz".

(** ** A small web: [s] links to [a] and [b] (and to itself), [a] links
    to [b], [s] and [c]; [b] and [c] cannot be fetched.  The state of the
    web counts the requests. *)
#[local] Instance toy_web : Web :=
  {| html := list str;
     web := nat;
     requests_get := fun url w =>
       if decide (url = lit "s") then (Ok [lit "a"; lit "b"; lit "s"; lit "a"], S w)
       else if decide (url = lit "a") then (Ok [lit "b"; lit "s"; lit "c"], S w)
       else (Raise RequestException, S w);
     extract_text_from_page := fun page url => Ok (url, url);
     get_links := fun page base => Ok page |}.

Section Instances.
Import Rag.

Example toy_index_has_three_chunks :
  length toy_E = 3 /\ map doc_id toy_Ms = [0; 0; 1] /\ map chunk_id toy_Ms = [0; 1; 0].
Proof. vm_compute. repeat split. Qed.

Lemma toy_indexed : indexed toy_E toy_Ms toy_process.
Proof. right. repeat split. Qed.

Example toy_best_match :
  exists rest p',
    retrieve hello 3 toy_process
    = (Ok ({| r_meta := meta_of 1 {| doc_url := lit "https://docs.example/b";
                                     doc_title := lit "B"; doc_content := hello |}
                                0 hello;
              similarity := 1 |} :: rest), p').
Proof. eexists _, _. vm_compute. reflexivity. Qed.

Lemma build_index_aligned_witness :
  docs_json toy_files = Some toy_docs
  /\ exists E Ms,
       Ingest.build_index toy_files
       = (Ok (E, Ms),
          {| docs_json := Some toy_docs; embeddings_npy := Some E;
             metadata_json := Some Ms |})
       /\ length Ms = length E.
Proof.
  split; [reflexivity|].
  destruct (build_index_aligned toy_files toy_docs eq_refl) as (E & Ms & Hrun & Hlen & _).
  exists E, Ms. split; [exact Hrun | exact Hlen].
Defined.

Lemma retrieve_top_k_witness :
  indexed toy_E toy_Ms toy_process
  /\ exists results,
       retrieve hello 2 toy_process
       = (Ok results, warm toy_E toy_Ms toy_process (CallRetrieve hello 2))
       /\ length results = 2.
Proof.
  split; [exact toy_indexed|].
  destruct (retrieve_top_k toy_E toy_Ms toy_process hello 2 toy_indexed
              ltac:(vm_compute; lia) ltac:(lia)) as [Hreturns _].
  destruct (Hreturns ltac:(vm_compute; lia)) as (results & Hrun & Hlen & _).
  exists results. split; [exact Hrun | exact Hlen].
Defined.

(** With the three chunks of the example and the default [top_k] of 4
    (the value [ask] passes), [retrieve] raises: it does not return
    [min 4 3 = 3] results. *)
Lemma retrieve_more_than_indexed :
  length toy_E = 3
  /\ fst (retrieve hello 4 toy_process) = Raise ValueError
  /\ ~ exists results p',
         retrieve hello 4 toy_process = (Ok results, p')
         /\ length results = Nat.min 4 (length toy_E).
Proof.
  split; [reflexivity|]. split; [vm_compute; reflexivity|].
  intros (results & p' & Hrun & _).
  apply (f_equal fst) in Hrun. vm_compute in Hrun. discriminate.
Qed.

Definition toy_retrieved : list retrieval_result :=
  match fst (retrieve other 3 toy_process) with
  | Ok results => results
  | Raise _ => []
  end.

Lemma toy_retrieve_run :
  retrieve other 3 toy_process
  = (Ok toy_retrieved, warm toy_E toy_Ms toy_process (CallRetrieve other 3)).
Proof. vm_compute. reflexivity. Qed.

Lemma retrieve_similarity_witness :
  Forall (fun r => exists i row,
            toy_E !! i = Some row
            /\ toy_Ms !! i = Some (r_meta r)
            /\ similarity r = (1 - cosine_distance (encode other) row)%Q
            /\ ((0 <= cosine_distance (encode other) row <= 2)%Q ->
                (- (1) <= similarity r <= 1)%Q))
         toy_retrieved.
Proof.
  exact (retrieve_similarity toy_E toy_Ms toy_process other 3 toy_retrieved _
           toy_indexed toy_retrieve_run).
Defined.

(** A request whose question is three spaces and a tab. *)
Definition blank_request : gmap str App.json_value :=
  {[ lit "question" := App.JString (lit "   " ++ [9%N]) ]}.

Lemma ask_empty_question_witness :
  App.ask (H0 := canned_client) blank_request toy_process
  = (Ok (400, App.ErrorBody (lit "empty question")), toy_process)
  /\ calls (snd (App.ask (H0 := canned_client) blank_request toy_process))
     = calls toy_process.
Proof.
  apply (ask_empty_question (H0 := canned_client)). right.
  exists (lit "   " ++ [9%N]). split; [vm_compute; reflexivity | reflexivity].
Defined.



Definition toy_response : answer_response :=
  response (WARNING ++ join (nl ++ nl) (map snippet toy_retrieved)) toy_retrieved.

Lemma toy_answer_run :
  answer_query (H0 := no_client) other 3 toy_process
  = (Ok toy_response,
     warm toy_E toy_Ms (add_call (CallAnswerQuery other 3) toy_process)
          (CallRetrieve other 3)).
Proof. vm_compute. reflexivity. Qed.

Lemma toy_range :
  Forall (fun row => (0 <= cosine_distance (encode other) row <= 2)%Q) toy_E.
Proof.
  assert (HE : toy_E = [(1, 0); (1, 0); (0, 1)]%Q) by (vm_compute; reflexivity).
  rewrite HE. repeat (constructor; [split; vm_compute; discriminate|]). constructor.
Qed.

Lemma answer_query_confidence_witness :
  exists results p',
    retrieve other 3 (add_call (CallAnswerQuery other 3) toy_process) = (Ok results, p')
    /\ (confidence toy_response == mean (map similarity results))%Q
    /\ (- (1) <= confidence toy_response <= 1)%Q
    /\ forall r2 p2,
         answer_query (H0 := canned_client) other 3 toy_process = (Ok r2, p2) ->
         confidence r2 = confidence toy_response.
Proof.
  exact (answer_query_confidence no_client canned_client toy_E toy_Ms toy_process _
           other 3 toy_response toy_indexed toy_range toy_answer_run).
Defined.

(** The query of the example is at more than a right angle from every
    chunk: all three similarities are negative, and so is the confidence,
    with or without a completion model. *)
Lemma confidence_below_zero :
  (exists r p',
     answer_query (H0 := no_client) other 3 toy_process = (Ok r, p')
     /\ (confidence r == - (2 # 3))%Q /\ ~ (0 <= confidence r <= 1)%Q)
  /\ (exists r p',
        answer_query (H0 := canned_client) other 3 toy_process = (Ok r, p')
        /\ (confidence r == - (2 # 3))%Q /\ ~ (0 <= confidence r <= 1)%Q).
Proof.
  split; eexists _, _; (split; [vm_compute; reflexivity|]);
    (split; [vm_compute; reflexivity|]);
    intros [Hlow _]; vm_compute in Hlow; apply Hlow; reflexivity.
Qed.

Definition toy_final : Scraper.crawl :=
  default (Scraper.start (H := toy_web) (lit "s") 0%nat)
          (Scraper.crawl_loop 10 (lit "s") 200 (Scraper.start (H := toy_web) (lit "s") 0%nat)).

Lemma toy_crawl_run :
  Scraper.crawl_loop 10 (lit "s") 200 (Scraper.start (H := toy_web) (lit "s") 0%nat) = Some toy_final.
Proof. vm_compute. reflexivity. Qed.

Lemma crawl_fetches_once_witness :
  NoDup (Scraper.fetched toy_final)
  /\ Scraper.fetched toy_final = [lit "s"; lit "a"; lit "b"; lit "c"].
Proof.
  destruct (crawl_fetches_once (H := toy_web) (lit "s") 200 0%nat 10 toy_final toy_crawl_run) as [Hnd _].
  split; [exact Hnd | vm_compute; reflexivity].
Defined.

End Instances.

(** * Further instances *)

Section MoreInstances.
Import Rag.

Lemma build_index_chunk_count_witness :
  docs_json toy_files = Some toy_docs
  /\ exists E Ms,
       fst (Ingest.build_index toy_files) = Ok (E, Ms)
       /\ length E = 3.
Proof.
  split; [reflexivity|].
  destruct (build_index_chunk_count toy_files toy_docs eq_refl) as (E & Ms & Hrun & Hlen & _).
  exists E, Ms. split; [exact Hrun | exact Hlen].
Defined.

Lemma build_index_excerpts_witness :
  exists E Ms,
    fst (Ingest.build_index toy_files) = Ok (E, Ms)
    /\ forall m, m ∈ Ms ->
         exists d, toy_docs !! doc_id m = Some d
                   /\ text_excerpt m = take 400 (drop (chunk_id m * 500) (doc_content d))
                   /\ length (text_excerpt m)
                      = Nat.min 400 (length (doc_content d) - chunk_id m * 500).
Proof. exact (build_index_excerpts toy_files toy_docs eq_refl). Defined.

Definition toy_nearest : list retrieval_result :=
  match fst (retrieve hello 2 toy_process) with
  | Ok results => results
  | Raise _ => []
  end.

Lemma toy_retrieve_two :
  retrieve hello 2 toy_process
  = (Ok toy_nearest, warm toy_E toy_Ms toy_process (CallRetrieve hello 2)).
Proof. vm_compute. reflexivity. Qed.

Lemma retrieve_nearest_witness :
  exists idxs : list nat,
    length idxs = 2
    /\ NoDup idxs
    /\ Forall2 (fun i r => exists row,
                  toy_E !! i = Some row
                  /\ toy_Ms !! i = Some (r_meta r)
                  /\ similarity r = (1 - cosine_distance (encode hello) row)%Q)
               idxs toy_nearest
    /\ forall j row, toy_E !! j = Some row -> j ∉ idxs ->
         Forall (fun r => (1 - cosine_distance (encode hello) row <= similarity r)%Q)
                toy_nearest.
Proof.
  exact (retrieve_nearest toy_E toy_Ms toy_process _ hello 2 toy_nearest
           toy_indexed toy_retrieve_two).
Defined.

Lemma retrieve_uses_cache_witness :
  loaded toy_E toy_Ms (warm toy_E toy_Ms toy_process (CallRetrieve hello 2))
  /\ forall fs' q' k',
       fst (retrieve q' k'
              (set_disk fs' (warm toy_E toy_Ms toy_process (CallRetrieve hello 2))))
       = fst (retrieve q' k' (warm toy_E toy_Ms toy_process (CallRetrieve hello 2))).
Proof.
  exact (retrieve_uses_cache toy_E toy_Ms toy_process _ hello 2 toy_nearest
           toy_indexed toy_retrieve_two).
Defined.

(** A process over an index without any chunk. *)
Definition empty_process : process :=
  {| disk := {| docs_json := Some []; embeddings_npy := Some [];
                metadata_json := Some [] |};
     embeddings := None; metas := None; nn := None; calls := [] |}.

Lemma retrieve_after_failed_fit_witness :
  exists p1,
    retrieve hello 4 empty_process = (Raise ValueError, p1)
    /\ forall p2, nn p2 = nn p1 ->
         forall q' k',
           fst (retrieve q' k' p2) = Raise NotFittedError
           /\ nn (snd (retrieve q' k' p2)) = nn p2.
Proof.
  apply (retrieve_after_failed_fit [] empty_process hello 4). repeat split.
Defined.

(** A process whose disk has the embeddings of the corpus and no
    metadata. *)
Definition half_process : process :=
  {| disk := {| docs_json := Some toy_docs; embeddings_npy := Some toy_E;
                metadata_json := None |};
     embeddings := None; metas := None; nn := None; calls := [] |}.

Lemma retrieve_after_missing_metadata_witness :
  exists p1,
    retrieve hello 2 half_process = (Raise FileNotFoundError, p1)
    /\ forall fs' E' Ms' q' k',
         embeddings_npy fs' = Some E' -> metadata_json fs' = Some Ms' ->
         fst (retrieve q' k' (set_disk fs' p1))
         = rbind (kneighbors (fitted toy_E) (encode q') k') (rmap (result_of Ms')).
Proof.
  apply (retrieve_after_missing_metadata toy_E half_process hello 2).
  - repeat split.
  - reflexivity.
  - reflexivity.
  - vm_compute. discriminate.
Defined.

(** A process before any ingestion. *)
Definition bare_process : process :=
  {| disk := {| docs_json := Some toy_docs; embeddings_npy := None;
                metadata_json := None |};
     embeddings := None; metas := None; nn := None; calls := [] |}.

Lemma retrieve_before_ingest_witness :
  retrieve hello 4 bare_process
  = (Raise FileNotFoundError, add_call (CallRetrieve hello 4) bare_process)
  /\ fresh (add_call (CallRetrieve hello 4) bare_process)
  /\ forall fs' E Ms,
       embeddings_npy fs' = Some E -> metadata_json fs' = Some Ms ->
       indexed E Ms (set_disk fs' (add_call (CallRetrieve hello 4) bare_process)).
Proof.
  apply (retrieve_before_ingest bare_process hello 4).
  - repeat split.
  - reflexivity.
Defined.

Lemma answer_query_citations_witness :
  length (citations toy_response) = 3
  /\ (forall i j ci cj, i <= j ->
        citations toy_response !! i = Some ci -> citations toy_response !! j = Some cj ->
        (c_similarity cj <= c_similarity ci)%Q)
  /\ Forall (fun c => exists m, m ∈ toy_Ms /\ c_title c = title m /\ c_url c = url m)
            (citations toy_response)
  /\ confidence toy_response
     = (sum (map c_similarity (citations toy_response))
        / inject_Z (Z.of_nat (Nat.max 1 (length (citations toy_response)))))%Q.
Proof.
  exact (answer_query_citations (H0 := no_client) toy_E toy_Ms toy_process _ other 3
           toy_response toy_indexed toy_answer_run).
Defined.

(** A request with the question of the example between spaces. *)
Definition hello_request : gmap str App.json_value :=
  {[ lit "question" := App.JString (lit " hello world ") ]}.

Lemma ask_small_index_witness :
  exists p',
    App.ask (H0 := canned_client) hello_request toy_process
    = (Ok (500, App.ExceptionBody ValueError), p')
    /\ calls p'
       = calls toy_process
         ++ [CallAnswerQuery (strip (lit " hello world ")) 4;
             CallRetrieve (strip (lit " hello world ")) 4].
Proof.
  apply (ask_small_index (H0 := canned_client) toy_E toy_Ms hello_request toy_process
           (lit " hello world ") toy_indexed).
  - vm_compute. lia.
  - vm_compute. reflexivity.
  - vm_compute. reflexivity.
Defined.

Lemma retrieve_after_ingest_local_witness :
  loaded toy_E toy_Ms
    (snd (App.ingest_local (warm toy_E toy_Ms toy_process (CallRetrieve hello 2))))
  /\ fst (retrieve hello 2
            (snd (App.ingest_local (warm toy_E toy_Ms toy_process (CallRetrieve hello 2)))))
     = fst (retrieve hello 2 (warm toy_E toy_Ms toy_process (CallRetrieve hello 2))).
Proof.
  apply (retrieve_after_ingest_local toy_E toy_Ms _ hello 2). repeat split.
Defined.

Lemma crawl_run_shape_witness :
  toy_final = after (H := toy_web) (length (Scraper.fetched toy_final)) (lit "s")
                    (Scraper.start (H := toy_web) (lit "s") 0%nat)
  /\ length (Scraper.fetched toy_final) <= 200
  /\ size (Scraper.visited toy_final) = length (Scraper.fetched toy_final)
  /\ Scraper.visited toy_final = list_to_set (Scraper.fetched toy_final).
Proof.
  exact (crawl_run_shape (H := toy_web) (lit "s") 200 0%nat 10 toy_final toy_crawl_run).
Defined.

Lemma toy_scrape_run :
  Scraper.scrape (H := toy_web) 10 (lit "s") 200 0%nat
  = Some (Scraper.docs toy_final, toy_final).
Proof. unfold Scraper.scrape. rewrite toy_crawl_run. reflexivity. Qed.

Lemma scrape_documents_witness :
  length (Scraper.docs toy_final) <= 200
  /\ NoDup (map doc_url (Scraper.docs toy_final))
  /\ map doc_url (Scraper.docs toy_final) `sublist_of` Scraper.fetched toy_final
  /\ Forall (fun d => doc_url d ∈ Scraper.visited toy_final) (Scraper.docs toy_final).
Proof.
  exact (scrape_documents (H := toy_web) (lit "s") 200 0%nat 10 _ toy_final toy_scrape_run).
Defined.

Lemma crawl_starts_at_seed_witness :
  head (Scraper.fetched toy_final) = Some (lit "s").
Proof.
  exact (crawl_starts_at_seed (H := toy_web) (lit "s") 200 0%nat 10 toy_final toy_crawl_run).
Defined.

End MoreInstances.

(** ** A site that links outside itself

    The pages of the site are the URLs that start with the seed [s];
    [get_links] keeps the links that do. *)
#[local] Instance toy_site : Web :=
  {| html := list str;
     web := unit;
     requests_get := fun url w =>
       if decide (url = lit "s") then (Ok [lit "s/a"; lit "t/x"; lit "s/b"], w)
       else if decide (url = lit "s/a") then (Ok [lit "u/y"; lit "s"], w)
       else (Raise RequestException, w);
     extract_text_from_page := fun page url => Ok (url, url);
     get_links := fun page base => Ok (filter (fun l => Links.startswith l base = true) page) |}.

(** [urllib.parse] on URLs of the form [scheme://host/path]. *)
Fixpoint until_slash (s : str) : str :=
  match s with
  | [] => []
  | c :: s' => if (c =? 47)%N then [] else c :: until_slash s'
  end.

#[local] Instance toy_urls : UrlParse :=
  {| scheme := fun u =>
       if Links.startswith u (lit "https://") then lit "https"
       else if Links.startswith u (lit "http://") then lit "http"
       else [];
     netloc := fun u =>
       if Links.startswith u (lit "https://") then until_slash (drop 8 u)
       else if Links.startswith u (lit "http://") then until_slash (drop 7 u)
       else [];
     urljoin := fun base href =>
       if Links.startswith href (lit "https://") || Links.startswith href (lit "http://")
       then href else base ++ href |}.

#[local] Instance toy_parser : HtmlParser :=
  {| soup := list str; anchors := fun page => page |}.

Section SiteInstances.

Lemma crawl_confined_witness :
  within (H := toy_site) (fun u => Links.startswith u (lit "s") = true)
         (after (H := toy_site) 3 (lit "s") (Scraper.start (H := toy_site) (lit "s") tt)).
Proof.
  apply (crawl_confined (H := toy_site) (fun u => Links.startswith u (lit "s") = true)).
  - reflexivity.
  - intros page links [= <-]. apply Forall_forall. intros l Hl.
    apply list_elem_of_filter in Hl as [Hl _]. exact Hl.
Defined.

Example toy_site_crawl :
  Scraper.fetched (after (H := toy_site) 3 (lit "s") (Scraper.start (H := toy_site) (lit "s") tt))
  = [lit "s"; lit "s/a"; lit "s/b"].
Proof. vm_compute. reflexivity. Qed.

(** A page that links to another host, read with a seed that has no
    [//]. *)
Definition outside_link : str := lit "https://elsewhere.example/x#top".

Lemma get_links_without_domain_witness :
  Links.before_hash (urljoin (lit "docs") outside_link)
  ∈ Links.get_links (H := toy_parser) [lit "mailto:me"; outside_link] (lit "docs").
Proof.
  apply (get_links_without_domain (H := toy_parser) [lit "mailto:me"; outside_link]
           (lit "docs") outside_link).
  - reflexivity.
  - apply elem_of_cons. right. apply elem_of_cons. left. reflexivity.
  - reflexivity.
  - reflexivity.
  - vm_compute. discriminate.
  - right. vm_compute. reflexivity.
Defined.

Example toy_get_links :
  Links.get_links (H := toy_parser)
    [lit "mailto:me"; outside_link; lit "https://elsewhere.example/x"; lit "ftp://h/y"]
    (lit "docs")
  = [lit "https://elsewhere.example/x"].
Proof. vm_compute. reflexivity. Qed.

End SiteInstances.

Section PipelineInstances.
Import Rag.

Lemma crawl_then_index_witness :
  exists E Ms,
    fst (Ingest.build_index
           {| docs_json := Some (Scraper.docs toy_final); embeddings_npy := None;
              metadata_json := None |})
    = Ok (E, Ms)
    /\ Forall (fun m => doc_id m < 200 /\ url m ∈ Scraper.visited toy_final) Ms.
Proof.
  exact (@crawl_then_index toy_model toy_web (lit "s") 200 0%nat 10
           (Scraper.docs toy_final) toy_final
           {| docs_json := Some (Scraper.docs toy_final); embeddings_npy := None;
              metadata_json := None |}
           toy_scrape_run eq_refl).
Defined.

(** One document of 2000 characters: four chunks. *)
Definition long_docs : list doc :=
  [ {| doc_url := lit "https://docs.example/long"; doc_title := lit "Long";
       doc_content := replicate 2000 120%N |} ].

Definition long_process : process :=
  {| disk := {| docs_json := Some long_docs; embeddings_npy := None;
                metadata_json := None |};
     embeddings := None; metas := None; nn := None; calls := [] |}.

Lemma ingest_then_ask_witness :
  exists resp p',
    App.ask (H0 := no_client) hello_request
            (snd (App.ingest_local long_process))
    = (Ok (200, App.AnswerBody resp), p')
    /\ length (citations resp) = 4
    /\ Forall (fun c => exists d, d ∈ long_docs /\ c_url c = doc_url d
                                  /\ c_title c = doc_title d)
              (citations resp).
Proof.
  apply (ingest_then_ask (H0 := no_client) hello_request long_process long_docs
           (lit " hello world ")).
  - repeat split.
  - reflexivity.
  - vm_compute. lia.
  - vm_compute. reflexivity.
  - vm_compute. reflexivity.
  - reflexivity.
Defined.

End PipelineInstances.
